(** * Mock Signal server: the test-facing façade and the request schemas

    A shallow embedding of [src/api/server.ts] (the [Server] class that the
    test harness drives) and of [zod] schemas of [src/data/schemas.ts]:
    the two that bound group creation and username reservation, and
    those of identifiers, device keys, messages and username
    confirmation.

    The file has three parts.
    - [Schemas]: JavaScript values, the [zod] combinators the schemas are
      built from, and the schemas.
    - [Api]: the data of [server.ts], asynchronous methods as trees of
      effects ([Proc]), the promise queues, a scheduler that interleaves
      the segments between two [await]s, and every method of the class.
    - the properties of the class, those of every interleaving and those
      of a single segment, the properties of the schemas, and runs of a
      server on which the properties are instantiated. *)

From Stdlib Require Import Strings.Byte DecimalString Floats.
From stdpp Require Import base numbers strings option gmap list.

Set Warnings "-register-all".

Local Open Scope Z_scope.
Local Open Scope string_scope.

(** A Node [Buffer] or a [Uint8Array]. *)
Abbreviation Buffer := (list Byte.byte) (only parsing).

(* ===================================================================== *)
(** * Part 1: the request schemas ([src/data/schemas.ts])               *)
(* ===================================================================== *)

Module Schemas.

(** ** JavaScript values handed to a schema

    Numbers are embedded as [Z]: the numbers these two schemas look at
    are a protobuf [uint32] (the group version) and small enum codes. An
    object is its list of own properties, read front to back. *)
Inductive JsValue : Type :=
| JUndefined
| JNull
| JBool (b : bool)
| JNumber (n : Z)
| JString (s : string)
| JUint8Array (bytes : Buffer)
| JArray (items : list JsValue)
| JObject (props : list (string * JsValue)).

(** [obj[key]] on the property list of an object: [undefined] when the
    property is missing. *)
Fixpoint get_prop (props : list (string * JsValue)) (key : string) : JsValue :=
  match props with
  | [] => JUndefined
  | (k, v) :: rest => if String.eqb k key then v else get_prop rest key
  end.

(** ** The [zod] combinators

    [zod]'s [safeParse] answers with the parsed value or with the list of
    issues it met; [parse] throws on the second. Only the issue codes are
    kept. *)
Inductive ZodIssueCode : Type :=
| invalid_type
| invalid_literal
| too_small
| too_big
| custom.

Inductive SafeParse (A : Type) : Type :=
| ParseOk (data : A)
| ParseError (issues : list ZodIssueCode).
Arguments ParseOk {A} data.
Arguments ParseError {A} issues.

Definition Schema (A : Type) : Type := JsValue -> SafeParse A.

Definition success {A} (r : SafeParse A) : bool :=
  match r with ParseOk _ => true | ParseError _ => false end.

(** Results of the properties of one object are merged: the value is
    built only when every property parsed, and the issues of all of them
    are reported together. *)
Definition merge {A B} (f : SafeParse (A -> B)) (x : SafeParse A) : SafeParse B :=
  match f, x with
  | ParseOk g, ParseOk a => ParseOk (g a)
  | ParseOk _, ParseError e => ParseError e
  | ParseError e, ParseOk _ => ParseError e
  | ParseError e1, ParseError e2 => ParseError (e1 ++ e2)%list
  end.
Infix "<*>" := merge (at level 61, left associativity).

(** [z.string()] *)
Definition z_string : Schema string := fun v =>
  match v with JString s => ParseOk s | _ => ParseError [invalid_type] end.

(** [z.number()] *)
Definition z_number : Schema Z := fun v =>
  match v with JNumber n => ParseOk n | _ => ParseError [invalid_type] end.

(** [z.literal(n)] for a number [n]: the input must be [=== n]. *)
Definition z_literal (n : Z) : Schema Z := fun v =>
  match v with
  | JNumber m => if Z.eqb m n then ParseOk m else ParseError [invalid_literal]
  | _ => ParseError [invalid_literal]
  end.

(** [z.instanceof(Uint8Array)] *)
Definition z_instanceof_Uint8Array : Schema Buffer := fun v =>
  match v with JUint8Array b => ParseOk b | _ => ParseError [custom] end.

(** [z.unknown()] *)
Definition z_unknown : Schema JsValue := fun v => ParseOk v.

(** [schema.transform(f)] *)
Definition transform {A B} (schema : Schema A) (f : A -> B) : Schema B := fun v =>
  match schema v with
  | ParseOk a => ParseOk (f a)
  | ParseError e => ParseError e
  end.

(** [schema.array()], with the bounds that [.min(n)] and [.max(n)] set. *)
Record ZodArray (A : Type) : Type := {
  element : Schema A;
  minLength : option nat;
  maxLength : option nat;
}.
Arguments element {A} _.
Arguments minLength {A} _.
Arguments maxLength {A} _.

Definition array {A} (schema : Schema A) : ZodArray A :=
  {| element := schema; minLength := None; maxLength := None |}.
Definition min {A} (n : nat) (a : ZodArray A) : ZodArray A :=
  {| element := element a; minLength := Some n; maxLength := maxLength a |}.
Definition max {A} (n : nat) (a : ZodArray A) : ZodArray A :=
  {| element := element a; minLength := minLength a; maxLength := Some n |}.

Fixpoint parse_items {A} (schema : Schema A) (items : list JsValue) : SafeParse (list A) :=
  match items with
  | [] => ParseOk []
  | v :: rest => ParseOk cons <*> schema v <*> parse_items schema rest
  end.

Definition check_min (bound : option nat) (len : nat) : list ZodIssueCode :=
  match bound with
  | Some n => if (len <? n)%nat then [too_small] else []
  | None => []
  end.

Definition check_max (bound : option nat) (len : nat) : list ZodIssueCode :=
  match bound with
  | Some n => if (n <? len)%nat then [too_big] else []
  | None => []
  end.

(** Parsing an array: a value that is no array is refused at once; the
    length is checked against both bounds and every item is parsed, and
    the issues of all three are reported together. *)
Definition parse_array {A} (a : ZodArray A) : Schema (list A) := fun v =>
  match v with
  | JArray items =>
      match (check_min (minLength a) (length items)
               ++ check_max (maxLength a) (length items))%list with
      | [] => parse_items (element a) items
      | issues =>
          match parse_items (element a) items with
          | ParseOk _ => ParseError issues
          | ParseError e => ParseError (issues ++ e)%list
          end
      end
  | _ => ParseError [invalid_type]
  end.

(** [z.object({...})]: the input must be an object; [shape] parses its
    properties. Properties the shape does not name are dropped. To [zod]
    a [Uint8Array] is an object as well: the shape is parsed on it, and
    it has none of the properties the schemas of this file name (its own
    properties are its indices). *)
Definition z_object {A} (shape : list (string * JsValue) -> SafeParse A) : Schema A := fun v =>
  match v with
  | JObject props => shape props
  | JUint8Array _ => shape []
  | _ => ParseError [invalid_type]
  end.

(** ** The schemas *)

Record AccessControl : Type := {
  attributes : Z;
  ac_members : Z;
  addFromInviteLink : Z;
}.

Record GroupState : Type := {
  publicKey : Buffer;
  version : Z;
  accessControl : AccessControl;
  members : list JsValue;
}.

Definition GroupStateSchema : Schema GroupState :=
  z_object (fun o =>
    ParseOk Build_GroupState
      <*> z_instanceof_Uint8Array (get_prop o "publicKey")
      <*> z_literal 0 (get_prop o "version")
      <*> z_object (fun ac =>
            ParseOk Build_AccessControl
              <*> z_number (get_prop ac "attributes")
              <*> z_number (get_prop ac "members")
              <*> z_number (get_prop ac "addFromInviteLink"))
            (get_prop o "accessControl")
      <*> parse_array (min 1 (array z_unknown)) (get_prop o "members")).

Record UsernameReservation : Type := {
  usernameHashes : list Buffer;
}.

Section WithUtil.

(** [fromURLSafeBase64] of [src/util], which is not among the sources:
    it maps a string to the bytes it encodes. *)
Variable fromURLSafeBase64 : string -> Buffer.

Definition UsernameReservationSchema : Schema UsernameReservation :=
  z_object (fun o =>
    ParseOk Build_UsernameReservation
      <*> parse_array
            (max 20 (min 1 (array (transform z_string fromURLSafeBase64))))
            (get_prop o "usernameHashes")).

End WithUtil.

(** Modelled from the spec: the HTTP router is not among the sources; the
    spec gives the status of a request whose body fails validation as 422
    ("[usernameHashes] array of length 0 → 422; length 21 → 422"). A
    body that parses goes on to the handler, which chooses the status. *)
Definition validation_status {A} (r : SafeParse A) : option Z :=
  match r with
  | ParseError _ => Some 422
  | ParseOk _ => None
  end.

(** ** The schemas of identifiers, keys and messages

    Numbers stay embedded as [Z]: key ids, device ids, registration ids,
    envelope types and timestamps are integers. Three more combinators
    come first. *)

(** [z.boolean()] *)
Definition z_boolean : Schema bool := fun v =>
  match v with JBool b => ParseOk b | _ => ParseError [invalid_type] end.

(** [schema.refine(check)]: the check runs on a value that parsed, and a
    value that fails it is refused with the issue [custom]. *)
Definition refine {A} (schema : Schema A) (check : A -> bool) : Schema A := fun v =>
  match schema v with
  | ParseOk a => if check a then ParseOk a else ParseError [custom]
  | ParseError e => ParseError e
  end.

(** [schema.optional()]: [undefined] parses to [undefined]; every other
    value goes to the schema. *)
Definition optional {A} (schema : Schema A) : Schema (option A) := fun v =>
  match v with
  | JUndefined => ParseOk None
  | _ => transform schema Some v
  end.

(** [x as T]: a cast of TypeScript, nothing at run time. *)
Definition cast {A} (x : A) : A := x.

Definition AciSchema : Schema string := transform z_string cast.

(** [x.startsWith('PNI:')] is [String.prefix "PNI:" x]. *)
Definition PniSchema : Schema string :=
  transform (refine z_string (String.prefix "PNI:")) cast.

Definition ServiceIdSchema : Schema string := transform z_string cast.

Definition RegistrationIdSchema : Schema Z := transform z_number cast.

Definition DeviceIdSchema : Schema Z := transform z_number cast.

Record ServerPreKey : Type := {
  pk_keyId : Z;
  pk_publicKey : string;
}.

Definition PreKeySchema : Schema ServerPreKey :=
  z_object (fun o =>
    ParseOk Build_ServerPreKey
      <*> z_number (get_prop o "keyId")
      <*> z_string (get_prop o "publicKey")).

Record ServerSignedPreKey : Type := {
  spk_keyId : Z;
  spk_publicKey : string;
  signature : string;
}.

Definition SignedPreKeySchema : Schema ServerSignedPreKey :=
  z_object (fun o =>
    ParseOk Build_ServerSignedPreKey
      <*> z_number (get_prop o "keyId")
      <*> z_string (get_prop o "publicKey")
      <*> z_string (get_prop o "signature")).

Record DeviceKeys : Type := {
  preKeys : list ServerPreKey;
  pqPreKeys : option (list ServerSignedPreKey);
  pqLastResortPreKey : option ServerSignedPreKey;
  signedPreKey : option ServerSignedPreKey;
}.

Definition DeviceKeysSchema : Schema DeviceKeys :=
  z_object (fun o =>
    ParseOk Build_DeviceKeys
      <*> parse_array (array PreKeySchema) (get_prop o "preKeys")
      <*> optional (parse_array (array SignedPreKeySchema)) (get_prop o "pqPreKeys")
      <*> optional SignedPreKeySchema (get_prop o "pqLastResortPreKey")
      <*> optional SignedPreKeySchema (get_prop o "signedPreKey")).

Record Message : Type := {
  type : Z;
  destinationDeviceId : Z;
  destinationRegistrationId : Z;
  content : string;
}.

Definition MessageSchema : Schema Message :=
  z_object (fun o =>
    ParseOk Build_Message
      <*> z_number (get_prop o "type")
      <*> DeviceIdSchema (get_prop o "destinationDeviceId")
      <*> RegistrationIdSchema (get_prop o "destinationRegistrationId")
      <*> z_string (get_prop o "content")).

Record MessageList : Type := {
  messages : list Message;
  timestamp : Z;
}.

Definition MessageListSchema : Schema MessageList :=
  z_object (fun o =>
    ParseOk Build_MessageList
      <*> parse_array (array MessageSchema) (get_prop o "messages")
      <*> z_number (get_prop o "timestamp")).

Record UsernameConfirmation : Type := {
  usernameHash : Buffer;
  zkProof : Buffer;
  encryptedUsername : option Buffer;
}.

Section WithBase64.

Variable fromURLSafeBase64 : string -> Buffer.

Definition UsernameConfirmationSchema : Schema UsernameConfirmation :=
  z_object (fun o =>
    ParseOk Build_UsernameConfirmation
      <*> transform z_string fromURLSafeBase64 (get_prop o "usernameHash")
      <*> transform z_string fromURLSafeBase64 (get_prop o "zkProof")
      <*> optional (transform z_string fromURLSafeBase64) (get_prop o "encryptedUsername")).

End WithBase64.

(** The object whose properties hold the values of a message, and the
    object of a list of messages. *)
Definition message_value (m : Message) : JsValue :=
  JObject [ ("type", JNumber (type m));
            ("destinationDeviceId", JNumber (destinationDeviceId m));
            ("destinationRegistrationId", JNumber (destinationRegistrationId m));
            ("content", JString (content m)) ].

Definition message_list_value (l : MessageList) : JsValue :=
  JObject [ ("messages", JArray (message_value <$> messages l));
            ("timestamp", JNumber (timestamp l)) ].

End Schemas.

(* ===================================================================== *)
(** * Part 2: the façade ([src/api/server.ts])                          *)
(* ===================================================================== *)

Module Api.

(** ** Data *)

Abbreviation UUID := string (only parsing).
Abbreviation ProvisioningCode := string (only parsing).
Abbreviation RegistrationId := Z (only parsing).
Abbreviation PrivateKey := Buffer (only parsing).
Abbreviation PublicKey := Buffer (only parsing).
Abbreviation DeviceKeys := Buffer (only parsing).

(** Modelled from the spec: [PRIMARY_DEVICE_ID] of [src/constants], which
    is not among the sources ("DeviceId — positive integer; [1] reserved
    for the primary device"). *)
Definition PRIMARY_DEVICE_ID : Z := 1.

(** [DEFAULT_API_TIMEOUT], in milliseconds. *)
Definition DEFAULT_API_TIMEOUT : Z := 60000.

(** Modelled from the spec: [Device] of [src/data/device], which is not
    among the sources, with the properties [server.ts] reads ("Device:
    DeviceId, owning ACI, RegistrationId"). *)
Record Device : Type := {
  uuid : UUID;
  pni : UUID;
  number : string;
  deviceId : Z;
  registrationId : RegistrationId;
}.

(** Modelled from the spec: [EnvelopeType] of [src/server/base], which is
    not among the sources; [server.ts] tells [SealedSender] from every
    other type ("envelope type (1..9 per Signal's Envelope.Type)"). *)
Inductive EnvelopeType : Type :=
| SealedSender
| OtherEnvelope (code : Z).

Definition is_sealed_sender (t : EnvelopeType) : bool :=
  match t with SealedSender => true | OtherEnvelope _ => false end.

(** The result of [encryptAttachment] ([src/crypto], not among the
    sources): "[{ blob, key, digest, size }]". *)
Record EncryptedAttachment : Type := {
  blob : Buffer;
  key : Buffer;
  digest : Buffer;
  att_size : Z;
}.

(** What can be thrown. *)
Inductive Error : Type :=
| JsError (message : string)
| AssertionError (message : string)
| QueueTimeout
| ExternalError (message : string).

Record TrustRoot : Type := {
  tr_privateKey : string;
  tr_publicKey : string;
}.

Record ZKParams : Type := {
  secretParams : string;
  zk_publicParams : string;
}.

(** [ServerOptions] of Node's [https]: a bag of named options. An option
    that is there may hold [undefined]. *)
Abbreviation ServerOptions := (gmap string (option Buffer)) (only parsing).

(** A [Long] of the [long] package, by its value; and a number of
    JavaScript, a double. *)
Abbreviation Long := Z (only parsing).
Abbreviation double := float (only parsing).

(** An optional property [p?: T] of an object: the key is missing, or it
    is there and holds a value or [undefined]. *)
Inductive Optional (T : Type) : Type :=
| Missing
| Holds (value : option T).
Arguments Missing {T}.
Arguments Holds {T} value.

(** [{ p: dflt, ...obj }] read at [p]: the spread property wins whenever
    its key is there. *)
Definition spread_over {T} (dflt : option T) (prop : Optional T) : option T :=
  match prop with
  | Missing => dflt
  | Holds v => v
  end.

(** [Config], what the caller of the constructor passes. *)
Record Config : Type := {
  cfg_trustRoot : Optional TrustRoot;
  cfg_zkParams : Optional ZKParams;
  cfg_https : Optional ServerOptions;
  cfg_timeout : Optional Z;
}.

(** [StrictConfig], what the server keeps. At run time a property of it
    holds [undefined] when the caller passed the key with [undefined]. *)
Record StrictConfig : Type := {
  strict_trustRoot : option TrustRoot;
  strict_zkParams : option ZKParams;
  strict_https : ServerOptions;
  timeout : option Z;
}.

(** Handles of objects that live outside the server. *)
Record HttpsServer : Type := { server_handle : nat }.

Record AddressInfo : Type := {
  ai_address : string;
  ai_family : string;
  ai_port : Z;
}.

(** What [https.Server.address()] answers. *)
Inductive AddressResult : Type :=
| AddressNull
| AddressString (s : string)
| AddressObject (info : AddressInfo).

(** A value of the query of a parsed URL. *)
Inductive QueryValue : Type :=
| QueryMissing
| QueryString (s : string)
| QueryArray (l : list string).

Record Query : Type := {
  query_uuid : QueryValue;
  query_pub_key : QueryValue;
}.

(** ** Promise queues

    The four kinds of queue of the class, by the type of their items. A
    queue is an object on the heap; [Queue t] is a reference to one, so
    that the closure of a pending provision and the two maps of result
    queues can share it. *)
Inductive qty : Type := QPending | QResponse | QDevice | QVersion.

Record Queue (t : qty) : Type := { addr : nat }.
Arguments addr {t} _.

(** A [PendingProvision] is the closure [complete]; it captures the two
    queues of the attempt. *)
Record PendingProvision : Type := {
  responseQueue : Queue QResponse;
  resultQueue : Queue QDevice;
}.

Section WithAttachments.

(** [Proto.IAttachmentPointer] and [attachmentToPointer] come from
    [protos/compiled] and [src/data/attachment], which are not among the
    sources: the pointer type is left open, and the function is any
    function of the CDN key and the encrypted attachment. *)
Context {AttachmentPointer : Type}.
Variable attachmentToPointer : string -> EncryptedAttachment -> AttachmentPointer.

(** [Long.prototype.toNumber] comes from the [long] package, which is
    not among the sources: the function is any function from the value
    of a [Long] to a double (the package rounds a value that no double
    holds). *)
Variable toNumber : Long -> double.

(** [`${n}`] for a registration id [n]: the conversion of a number to a
    string is the language's own, and any function here (it prints the
    digits of an integer below 10^21, and an exponent from there on). *)
Variable numberToString : RegistrationId -> string.

(** The options [createPrimaryDevice] passes to [new PrimaryDevice]. The
    remaining options are callbacks bound to this server; they carry no
    data. A property read from [this] holds what [this] held then. *)
Record PrimaryDeviceConfig : Type := {
  profileName : string;
  contacts : AttachmentPointer;
  groups : option AttachmentPointer;
  pd_trustRoot : PublicKey;
  serverPublicParams : Buffer;
}.

(** [PrimaryDevice] ([src/api/primary-device], not among the sources),
    with the properties [server.ts] reads. *)
Record PrimaryDevice : Type := {
  device : Device;
  pd_config : PrimaryDeviceConfig;
  profileKey : Buffer;
  userAgent : string;
}.

Record PendingProvisionResponse : Type := {
  provisionURL : string;
  primaryDevice : PrimaryDevice;
}.

Record ProvisionMessage : Type := {
  identityKeyPrivate : Buffer;
  pm_number : string;
  pm_uuid : UUID;
  provisioningCode : ProvisioningCode;
  pm_profileKey : Buffer;
  pm_userAgent : string;
  readReceipts : bool;
}.

Record ProvisioningResponse : Type := {
  envelope : Buffer;
}.

(** The type of the items of a queue. *)
Definition qval (t : qty) : Type :=
  match t with
  | QPending => PendingProvision
  | QResponse => PendingProvisionResponse
  | QDevice => Device
  | QVersion => double
  end.

(** The fields of the [Server] object. *)
Record Server : Type := {
  config : StrictConfig;
  trustRoot : PrivateKey;
  zkSecret : Buffer;
  certificate : Buffer;
  primaryDevices : gmap string PrimaryDevice;
  knownNumbers : gset string;
  https : option HttpsServer;
  emptyAttachment : option AttachmentPointer;
  provisionQueue : Queue QPending;
  provisionResultQueueByCode : gmap ProvisioningCode (Queue QDevice);
  provisionResultQueueByKey : gmap string (Queue QDevice);
  manifestQueueByUuid : gmap UUID (Queue QVersion);
}.

(** ** What the harness and the properties observe

    The marks a method leaves in the log. They stand where the method
    is entered or where it returns, and take no part in what it does. *)
Inductive Event : Type :=
| UpdateDeviceKeysCalled (d : Device)
| CompleteResolved (pending : PendingProvision) (d : Device)
| CodeIssued (code : ProvisioningCode) (queue : Queue QDevice)
| CodeConsumed (code : ProvisioningCode)
| NumberGenerated (number : string)
| PrimaryDeviceCreated (primary : PrimaryDevice)
| Encrypted (plaintext : Buffer) (result : EncryptedAttachment)
| EmptyAttachmentStored (pointer : AttachmentPointer).

(** ** Calls that leave the class

    Calls into the crypto module, the base server, a primary device and
    Node. Their code is outside [server.ts]; a call answers with any
    value of its type, or throws. *)
Inductive ExtCall : Type -> Type :=
| EncryptAttachment (plaintext : Buffer) : ExtCall EncryptedAttachment
| EncryptProvisionMessage (data : Buffer) (publicKey : PublicKey) : ExtCall (Buffer * Buffer)
| PublicKeyDeserialize (base64 : string) : ExtCall PublicKey
| GetPublicKey (k : PrivateKey) : ExtCall PublicKey
| GetPublicParams (zk : Buffer) : ExtCall Buffer
| GenerateRandomE164 : ExtCall string
| GenerateUUID : ExtCall UUID
| GenerateRegistrationId : ExtCall RegistrationId
| RegisterDevice (uuid pni number : string) (registrationId : RegistrationId) : ExtCall Device
| StoreAttachment (blob : Buffer) : ExtCall string
| GetProvisioningCode (uuid number : string) : ExtCall ProvisioningCode
| SuperUpdateDeviceKeys (d : Device) (keys : DeviceKeys) : ExtCall unit
| SuperProvisionDevice (number password : string) (code : ProvisioningCode)
    (registrationId : RegistrationId) : ExtCall Device
| NewPrimaryDevice (d : Device) (c : PrimaryDeviceConfig) : ExtCall PrimaryDevice
| PrimaryInit (p : PrimaryDevice) : ExtCall unit
| PrimaryGenerateKeys (p : PrimaryDevice) (d : Device) : ExtCall DeviceKeys
| PrimaryAddSecondaryDevice (p : PrimaryDevice) (d : Device) : ExtCall unit
| PrimaryGetIdentityKey (p : PrimaryDevice) : ExtCall PrivateKey
| PrimaryHandleEnvelope (p : PrimaryDevice) (source : option Device)
    (envelopeType : EnvelopeType) (encrypted : Buffer) : ExtCall unit
| SerializeContacts (l : list PrimaryDevice) : ExtCall Buffer
| ParseURL (url : string) : ExtCall Query
| EncodeProvisionMessage (m : ProvisionMessage) : ExtCall Buffer
| EncodeProvisionEnvelope (publicKey body : Buffer) : ExtCall Buffer
| CreateServer (options : ServerOptions) : ExtCall HttpsServer
| ServerListen (s : HttpsServer) (port : Z) (host : option string) : ExtCall unit
| ServerClose (s : HttpsServer) : ExtCall unit
| ServerAddress (s : HttpsServer) : ExtCall AddressResult.

(** ** Asynchronous methods as trees of effects

    What runs inside the current segment: reads and writes of [this], and
    the synchronous half of the queue operations. *)
Inductive SyncOp : Type -> Type :=
| GetThis : SyncOp Server
| SetThis (f : Server -> Server) : SyncOp unit
| NewQueue (t : qty) (timeout : option Z) : SyncOp (Queue t)
| Push (t : qty) (q : Queue t) (v : qval t) : SyncOp unit
| PushEntry (t : qty) (q : Queue t) (v : qval t) : SyncOp nat
| Trace (e : Event) : SyncOp unit.

(** What ends the current segment: the method goes on in a later segment,
    with the answer. [Tick] is the [await] of a promise that is already
    settled. *)
Inductive WaitOp : Type -> Type :=
| Shift (t : qty) (q : Queue t) : WaitOp (qval t)
| AwaitAck (t : qty) (q : Queue t) (token : nat) : WaitOp unit
| Tick : WaitOp unit
| Ext {A : Type} (c : ExtCall A) : WaitOp A.

(** A method body. [DoWhile c cond k] is the loop
    [do { a = c } while (cond(a))] followed by [k a]; the condition may
    read [this]. *)
Inductive Proc (R : Type) : Type :=
| Ret (r : R)
| Throw (e : Error)
| Sync {A : Type} (c : SyncOp A) (k : A -> Proc R)
| Wait {A : Type} (c : WaitOp A) (k : A -> Proc R)
| DoWhile {A : Type} (c : WaitOp A) (cond : A -> Server -> bool) (k : A -> Proc R).
Arguments Ret {R} r.
Arguments Throw {R} e.
Arguments Sync {R A} c k.
Arguments Wait {R A} c k.
Arguments DoWhile {R A} c cond k.

Fixpoint bind {A B} (p : Proc A) (f : A -> Proc B) : Proc B :=
  match p with
  | Ret a => f a
  | Throw e => Throw e
  | Sync c k => Sync c (fun x => bind (k x) f)
  | Wait c k => Wait c (fun x => bind (k x) f)
  | DoWhile c cond k => DoWhile c cond (fun x => bind (k x) f)
  end.

Definition ret {R} (r : R) : Proc R := Ret r.
Definition throw {R} (e : Error) : Proc R := Throw e.
Definition get_this : Proc Server := Sync GetThis Ret.
Definition set_this (f : Server -> Server) : Proc unit := Sync (SetThis f) Ret.
Definition trace (e : Event) : Proc unit := Sync (Trace e) Ret.
Definition await_tick : Proc unit := Wait Tick Ret.
Definition ext {A} (c : ExtCall A) : Proc A := Wait (Ext c) Ret.
Definition do_while {A} (c : WaitOp A) (cond : A -> Server -> bool) : Proc A :=
  DoWhile c cond Ret.

(** ** The heap of promise queues

    Modelled from the spec: [PromiseQueue] of [src/util], which is not
    among the sources. "A bounded-ish FIFO with two pairs of operations:
    [push(v)] / [shift() → v] and [pushAndWait(v) → ack] / [shift() → v]
    then deliver ack via a second rendezvous. Every [shift] and every
    [pushAndWait] is subject to a configurable timeout; on expiry the
    caller observes [QueueTimeout] and the queue entry is invalidated."
    An entry pushed by [pushAndWait] carries the token its pusher waits
    for. *)
Record PromiseQueue (T : Type) : Type := {
  queue_timeout : option Z;
  entries : list (T * option nat);
}.
Arguments queue_timeout {T} _.
Arguments entries {T} _.

Definition new_queue {T} (timeout : option Z) : PromiseQueue T :=
  {| queue_timeout := timeout; entries := [] |}.

Definition enqueue {T} (v : T) (token : option nat) (q : PromiseQueue T) : PromiseQueue T :=
  {| queue_timeout := queue_timeout q; entries := (entries q ++ [(v, token)])%list |}.

Definition with_entries {T} (l : list (T * option nat)) (q : PromiseQueue T) : PromiseQueue T :=
  {| queue_timeout := queue_timeout q; entries := l |}.

(** The entry a pusher gave up on is taken out of the queue. *)
Definition invalidate {T} (token : nat) (q : PromiseQueue T) : PromiseQueue T :=
  with_entries (filter (fun e => e.2 <> Some token) (entries q)) q.

Record Heap : Type := {
  pendingQueues : gmap nat (PromiseQueue PendingProvision);
  responseQueues : gmap nat (PromiseQueue PendingProvisionResponse);
  deviceQueues : gmap nat (PromiseQueue Device);
  versionQueues : gmap nat (PromiseQueue double);
  acked : gset nat;
  nextToken : nat;
}.

Definition queues (t : qty) (h : Heap) : gmap nat (PromiseQueue (qval t)) :=
  match t with
  | QPending => pendingQueues h
  | QResponse => responseQueues h
  | QDevice => deviceQueues h
  | QVersion => versionQueues h
  end.

Definition set_queues (t : qty) : gmap nat (PromiseQueue (qval t)) -> Heap -> Heap :=
  match t with
  | QPending => fun m h =>
      {| pendingQueues := m; responseQueues := responseQueues h;
         deviceQueues := deviceQueues h; versionQueues := versionQueues h;
         acked := acked h; nextToken := nextToken h |}
  | QResponse => fun m h =>
      {| pendingQueues := pendingQueues h; responseQueues := m;
         deviceQueues := deviceQueues h; versionQueues := versionQueues h;
         acked := acked h; nextToken := nextToken h |}
  | QDevice => fun m h =>
      {| pendingQueues := pendingQueues h; responseQueues := responseQueues h;
         deviceQueues := m; versionQueues := versionQueues h;
         acked := acked h; nextToken := nextToken h |}
  | QVersion => fun m h =>
      {| pendingQueues := pendingQueues h; responseQueues := responseQueues h;
         deviceQueues := deviceQueues h; versionQueues := m;
         acked := acked h; nextToken := nextToken h |}
  end.

Definition with_acked (a : gset nat) (h : Heap) : Heap :=
  {| pendingQueues := pendingQueues h; responseQueues := responseQueues h;
     deviceQueues := deviceQueues h; versionQueues := versionQueues h;
     acked := a; nextToken := nextToken h |}.

Definition with_nextToken (n : nat) (h : Heap) : Heap :=
  {| pendingQueues := pendingQueues h; responseQueues := responseQueues h;
     deviceQueues := deviceQueues h; versionQueues := versionQueues h;
     acked := acked h; nextToken := n |}.

Definition empty_heap : Heap :=
  {| pendingQueues := ∅; responseQueues := ∅; deviceQueues := ∅;
     versionQueues := ∅; acked := ∅; nextToken := 0 |}.

(** [new PromiseQueue({ timeout })]: a fresh object. *)
Definition alloc_queue (t : qty) (timeout : option Z) (h : Heap) : Queue t * Heap :=
  let a := fresh (dom (queues t h)) in
  ({| addr := a |}, set_queues t (<[a := new_queue timeout]> (queues t h)) h).

Definition ack (token : option nat) (h : Heap) : Heap :=
  with_acked (match token with
              | Some n => {[n]} ∪ acked h
              | None => acked h
              end) h.

(** ** States

    The fields of the server, the heap of queues, the CDN blob store of
    the base server, and the log. *)
Record State : Type := {
  this : Server;
  heap : Heap;
  cdn : gmap string Buffer;
  log : list Event;
}.

Definition with_this (x : Server) (s : State) : State :=
  {| this := x; heap := heap s; cdn := cdn s; log := log s |}.
Definition with_heap (h : Heap) (s : State) : State :=
  {| this := this s; heap := h; cdn := cdn s; log := log s |}.
Definition with_cdn (c : gmap string Buffer) (s : State) : State :=
  {| this := this s; heap := heap s; cdn := c; log := log s |}.
Definition with_log (l : list Event) (s : State) : State :=
  {| this := this s; heap := heap s; cdn := cdn s; log := l |}.

(** ** Segments

    One synchronous operation. *)
Definition do_sync {A} (c : SyncOp A) (s : State) : A * State :=
  match c in SyncOp A return A * State with
  | GetThis => (this s, s)
  | SetThis f => (tt, with_this (f (this s)) s)
  | NewQueue t timeout =>
      ((alloc_queue t timeout (heap s)).1, with_heap (alloc_queue t timeout (heap s)).2 s)
  | Push t q v =>
      (tt, with_heap (set_queues t (alter (enqueue v None) (addr q) (queues t (heap s)))
                        (heap s)) s)
  | PushEntry t q v =>
      let n := nextToken (heap s) in
      (n, with_heap (with_nextToken (S n)
                       (set_queues t (alter (enqueue v (Some n)) (addr q) (queues t (heap s)))
                          (heap s))) s)
  | Trace e => (tt, with_log (e :: log s) s)
  end.

(** A method runs up to its next [await], to its [return] or to its
    [throw]. *)
Fixpoint run_sync {R} (p : Proc R) (s : State) : Proc R * State :=
  match p with
  | Sync c k => run_sync (k (do_sync c s).1) (do_sync c s).2
  | _ => (p, s)
  end.

(** ** Answers

    Modelled from the spec: the answers of the calls that leave the
    class. [storeAttachment] of the base server "stores bytes under a
    fresh CDN key"; an encryption is noted in the log; a new
    [PrimaryDevice] holds the device and the options it was built from.
    Every other call answers with any value of its type and leaves the
    state of this class alone. Any call may throw. *)
Definition ext_answers {A} (c : ExtCall A) (s : State) : Error + A -> State -> Prop :=
  match c in ExtCall A return Error + A -> State -> Prop with
  | StoreAttachment blob => fun r s' =>
      match r with
      | inl _ => s' = s
      | inr cdnKey => cdn s !! cdnKey = None /\ s' = with_cdn (<[cdnKey := blob]> (cdn s)) s
      end
  | EncryptAttachment plaintext => fun r s' =>
      match r with
      | inl _ => s' = s
      | inr result => s' = with_log (Encrypted plaintext result :: log s) s
      end
  | NewPrimaryDevice d c => fun r s' =>
      s' = s /\
      match r with
      | inl _ => True
      | inr p => device p = d /\ pd_config p = c
      end
  | _ => fun _ s' => s' = s
  end.

(** The answer that ends a wait. [shift] takes the entry at the head of
    the queue and acknowledges it to its pusher; the second half of
    [pushAndWait] goes on once its entry is acknowledged; both may time
    out instead, and a pusher that times out withdraws its entry. *)
Definition wait_answers {A} (c : WaitOp A) (s : State) : Error + A -> State -> Prop :=
  match c in WaitOp A return Error + A -> State -> Prop with
  | Shift t q => fun r s' =>
      match r with
      | inl e => e = QueueTimeout /\ s' = s
      | inr v =>
          exists Q token rest,
            queues t (heap s) !! addr q = Some Q /\
            entries Q = (v, token) :: rest /\
            s' = with_heap
                   (ack token (set_queues t (<[addr q := with_entries rest Q]> (queues t (heap s)))
                                 (heap s))) s
      end
  | AwaitAck t q token => fun r s' =>
      match r with
      | inl e =>
          e = QueueTimeout /\
          s' = with_heap (set_queues t (alter (invalidate token) (addr q) (queues t (heap s)))
                            (heap s)) s
      | inr _ => token ∈ acked (heap s) /\ s' = s
      end
  | Tick => fun r s' => r = inr tt /\ s' = s
  | Ext c => ext_answers c s
  end.

(** One segment of a method that waits: the answer arrives, and the
    method runs up to its next [await]. A loop whose condition holds of
    the answer waits again. *)
Definition resumes {R} (p : Proc R) (s : State) (p' : Proc R) (s' : State) : Prop :=
  match p with
  | Wait c k =>
      exists r s1, wait_answers c s r s1 /\
        match r with
        | inl e => p' = Throw e /\ s' = s1
        | inr a => p' = (run_sync (k a) s1).1 /\ s' = (run_sync (k a) s1).2
        end
  | DoWhile c cond k =>
      exists r s1, wait_answers c s r s1 /\
        match r with
        | inl e => p' = Throw e /\ s' = s1
        | inr a =>
            if cond a (this s1)
            then p' = DoWhile c cond k /\ s' = s1
            else p' = (run_sync (k a) s1).1 /\ s' = (run_sync (k a) s1).2
        end
  | _ => False
  end.

#[export] Instance proc_bind : MBind Proc := fun A B f p => bind p f.
#[export] Instance proc_ret : MRet Proc := fun A r => Ret r.

(** ** The queue operations of the class *)

(** [queue.push(v)] *)
Definition push {t} (q : Queue t) (v : qval t) : Proc unit := Sync (Push t q v) Ret.

(** [await queue.pushAndWait(v)] *)
Definition pushAndWait {t} (q : Queue t) (v : qval t) : Proc unit :=
  Sync (PushEntry t q v) (fun token => Wait (AwaitAck t q token) Ret).

(** [await queue.shift()] *)
Definition shift {t} (q : Queue t) : Proc (qval t) := Wait (Shift t q) Ret.

(** ** Writes to the fields of [this] *)

Definition with_primaryDevices (f : gmap string PrimaryDevice -> gmap string PrimaryDevice)
    (x : Server) : Server :=
  {| config := config x; trustRoot := trustRoot x; zkSecret := zkSecret x;
     certificate := certificate x; primaryDevices := f (primaryDevices x);
     knownNumbers := knownNumbers x; https := https x;
     emptyAttachment := emptyAttachment x; provisionQueue := provisionQueue x;
     provisionResultQueueByCode := provisionResultQueueByCode x;
     provisionResultQueueByKey := provisionResultQueueByKey x;
     manifestQueueByUuid := manifestQueueByUuid x |}.

Definition with_knownNumbers (f : gset string -> gset string) (x : Server) : Server :=
  {| config := config x; trustRoot := trustRoot x; zkSecret := zkSecret x;
     certificate := certificate x; primaryDevices := primaryDevices x;
     knownNumbers := f (knownNumbers x); https := https x;
     emptyAttachment := emptyAttachment x; provisionQueue := provisionQueue x;
     provisionResultQueueByCode := provisionResultQueueByCode x;
     provisionResultQueueByKey := provisionResultQueueByKey x;
     manifestQueueByUuid := manifestQueueByUuid x |}.

Definition with_https (v : option HttpsServer) (x : Server) : Server :=
  {| config := config x; trustRoot := trustRoot x; zkSecret := zkSecret x;
     certificate := certificate x; primaryDevices := primaryDevices x;
     knownNumbers := knownNumbers x; https := v;
     emptyAttachment := emptyAttachment x; provisionQueue := provisionQueue x;
     provisionResultQueueByCode := provisionResultQueueByCode x;
     provisionResultQueueByKey := provisionResultQueueByKey x;
     manifestQueueByUuid := manifestQueueByUuid x |}.

Definition with_emptyAttachment (v : option AttachmentPointer) (x : Server) : Server :=
  {| config := config x; trustRoot := trustRoot x; zkSecret := zkSecret x;
     certificate := certificate x; primaryDevices := primaryDevices x;
     knownNumbers := knownNumbers x; https := https x;
     emptyAttachment := v; provisionQueue := provisionQueue x;
     provisionResultQueueByCode := provisionResultQueueByCode x;
     provisionResultQueueByKey := provisionResultQueueByKey x;
     manifestQueueByUuid := manifestQueueByUuid x |}.

Definition with_provisionResultQueueByCode
    (f : gmap ProvisioningCode (Queue QDevice) -> gmap ProvisioningCode (Queue QDevice))
    (x : Server) : Server :=
  {| config := config x; trustRoot := trustRoot x; zkSecret := zkSecret x;
     certificate := certificate x; primaryDevices := primaryDevices x;
     knownNumbers := knownNumbers x; https := https x;
     emptyAttachment := emptyAttachment x; provisionQueue := provisionQueue x;
     provisionResultQueueByCode := f (provisionResultQueueByCode x);
     provisionResultQueueByKey := provisionResultQueueByKey x;
     manifestQueueByUuid := manifestQueueByUuid x |}.

Definition with_provisionResultQueueByKey
    (f : gmap string (Queue QDevice) -> gmap string (Queue QDevice))
    (x : Server) : Server :=
  {| config := config x; trustRoot := trustRoot x; zkSecret := zkSecret x;
     certificate := certificate x; primaryDevices := primaryDevices x;
     knownNumbers := knownNumbers x; https := https x;
     emptyAttachment := emptyAttachment x; provisionQueue := provisionQueue x;
     provisionResultQueueByCode := provisionResultQueueByCode x;
     provisionResultQueueByKey := f (provisionResultQueueByKey x);
     manifestQueueByUuid := manifestQueueByUuid x |}.

Definition with_manifestQueueByUuid
    (f : gmap UUID (Queue QVersion) -> gmap UUID (Queue QVersion))
    (x : Server) : Server :=
  {| config := config x; trustRoot := trustRoot x; zkSecret := zkSecret x;
     certificate := certificate x; primaryDevices := primaryDevices x;
     knownNumbers := knownNumbers x; https := https x;
     emptyAttachment := emptyAttachment x; provisionQueue := provisionQueue x;
     provisionResultQueueByCode := provisionResultQueueByCode x;
     provisionResultQueueByKey := provisionResultQueueByKey x;
     manifestQueueByUuid := f (manifestQueueByUuid x) |}.

(** ** The constructor

    [CERT], [KEY], [TRUST_ROOT] and [ZK_PARAMS] are read from the [certs]
    directory when the module is loaded. *)
Record Certs : Type := {
  CERT : Buffer;
  KEY : Buffer;
  TRUST_ROOT : TrustRoot;
  ZK_PARAMS : ZKParams;
}.

(** [{ key: KEY, cert: CERT, ...(config.https || {}) }] *)
Definition https_options (certs : Certs) (given : Optional ServerOptions) : ServerOptions :=
  match given with
  | Holds (Some options) => options ∪ {[ "key" := Some (KEY certs); "cert" := Some (CERT certs) ]}
  | _ => {[ "key" := Some (KEY certs); "cert" := Some (CERT certs) ]}
  end.

(** [this.config = { timeout: DEFAULT_API_TIMEOUT, trustRoot: TRUST_ROOT,
    zkParams: ZK_PARAMS, ...config, https: { ... } }] *)
Definition strict_config (certs : Certs) (given : Config) : StrictConfig :=
  {| timeout := spread_over (Some DEFAULT_API_TIMEOUT) (cfg_timeout given);
     strict_trustRoot := spread_over (Some (TRUST_ROOT certs)) (cfg_trustRoot given);
     strict_zkParams := spread_over (Some (ZK_PARAMS certs)) (cfg_zkParams given);
     strict_https := https_options certs (cfg_https given) |}.

(** The state a [new Server(config)] starts from. The private key of the
    trust root, the secret params and the server certificate are what
    libsignal made of the configured keys; the last statement of the
    constructor creates the provision queue. *)
Definition constructor (certs : Certs) (given : Config)
    (trustPrivate : PrivateKey) (zkSecretParams : Buffer) (serverCertificate : Buffer) : State :=
  let strict := strict_config certs given in
  let created := alloc_queue QPending (timeout strict) empty_heap in
  {| this :=
       {| config := strict; trustRoot := trustPrivate; zkSecret := zkSecretParams;
          certificate := serverCertificate; primaryDevices := ∅; knownNumbers := ∅;
          https := None; emptyAttachment := None; provisionQueue := created.1;
          provisionResultQueueByCode := ∅; provisionResultQueueByKey := ∅;
          manifestQueueByUuid := ∅ |};
     heap := created.2;
     cdn := ∅;
     log := [] |}.

(** ** The methods of the class *)

(** [createQueue()] *)
Definition createQueue (t : qty) : Proc (Queue t) :=
  x ← get_this;
  Sync (NewQueue t (timeout (config x))) Ret.

(** [generateNumber()]. The mark [NumberGenerated] stands at its
    [return]. *)
Definition generateNumber : Proc string :=
  number ← do_while (Ext GenerateRandomE164)
             (fun number x => bool_decide (number ∈ knownNumbers x));
  set_this (with_knownNumbers (fun known => {[number]} ∪ known));;
  trace (NumberGenerated number);;
  ret number.

(** [listen(port, host)]. The mark [EmptyAttachmentStored] stands after
    the assignment of [this.emptyAttachment]. *)
Definition listen (port : Z) (host : option string) : Proc unit :=
  x ← get_this;
  match https x with
  | Some _ => throw (JsError "Already listening")
  | None =>
      emptyData ← ext (EncryptAttachment []);
      emptyCDNKey ← ext (StoreAttachment (blob emptyData));
      set_this (with_emptyAttachment (Some (attachmentToPointer emptyCDNKey emptyData)));;
      trace (EmptyAttachmentStored (attachmentToPointer emptyCDNKey emptyData));;
      x ← get_this;
      server ← ext (CreateServer (strict_https (config x)));
      set_this (with_https (Some server));;
      ext (ServerListen server port host)
  end.

(** [close()] *)
Definition close : Proc unit :=
  x ← get_this;
  match https x with
  | None => throw (JsError "Not listening")
  | Some server => ext (ServerClose server)
  end.

(** [address()] *)
Definition address : Proc AddressInfo :=
  x ← get_this;
  match https x with
  | None => throw (JsError "Not listening")
  | Some server =>
      result ← ext (ServerAddress server);
      match result with
      | AddressObject info => ret info
      | _ => throw (JsError "Invalid .address() result")
      end
  end.

(** [waitForProvision()] *)
Definition waitForProvision : Proc PendingProvision :=
  x ← get_this;
  shift (provisionQueue x).

(** The queue of manifest versions of an account, created on first use. *)
Definition manifest_queue (uuid : UUID) : Proc (Queue QVersion) :=
  x ← get_this;
  match manifestQueueByUuid x !! uuid with
  | Some queue => ret queue
  | None =>
      queue ← createQueue QVersion;
      set_this (with_manifestQueueByUuid (insert uuid queue));;
      ret queue
  end.

(** [afterVersion !== undefined && version <= afterVersion], the
    comparison of two doubles: it is false when one of them is [NaN]. *)
Definition not_after (afterVersion : option double) (version : double) : bool :=
  match afterVersion with
  | Some after => (version <=? after)%float
  | None => false
  end.

(** The loop of [waitForStorageManifest]:
    [do { version = await queue.shift() } while (...)]. *)
Definition manifest_loop (queue : Queue QVersion) (afterVersion : option double) : Proc unit :=
  version ← do_while (Shift QVersion queue) (fun version _ => not_after afterVersion version);
  ret tt.

(** [waitForStorageManifest(device, afterVersion)] *)
Definition waitForStorageManifest (d : Device) (afterVersion : option double) : Proc unit :=
  queue ← manifest_queue (uuid d);
  manifest_loop queue afterVersion.

(** [onStorageManifestUpdate(device, version)] *)
Definition onStorageManifestUpdate (d : Device) (version : Long) : Proc unit :=
  queue ← manifest_queue (uuid d);
  push (t := QVersion) queue (toNumber version).

(** [`${device.uuid}.${device.registrationId}`] *)
Definition result_key (d : Device) : string :=
  uuid d ++ "." ++ numberToString (registrationId d).

(** [updateDeviceKeys(device, keys)]. The mark [UpdateDeviceKeysCalled]
    stands at its entry. *)
Definition updateDeviceKeys (d : Device) (keys : DeviceKeys) : Proc unit :=
  trace (UpdateDeviceKeysCalled d);;
  ext (SuperUpdateDeviceKeys d keys);;
  x ← get_this;
  match provisionResultQueueByKey x !! result_key d with
  | None => ret tt
  | Some resultQueue =>
      set_this (with_provisionResultQueueByKey (delete (result_key d)));;
      pushAndWait resultQueue d
  end.

(** [provisionDevice(number, password, provisioningCode, registrationId)].
    The mark [CodeConsumed] stands after the [delete]. *)
Definition provisionDevice (number password : string) (code : ProvisioningCode)
    (registrationId : RegistrationId) : Proc Device :=
  x ← get_this;
  match provisionResultQueueByCode x !! code with
  | None =>
      throw (AssertionError ("Missing provision result queue for code: " ++ code))
  | Some queue =>
      set_this (with_provisionResultQueueByCode (delete code));;
      trace (CodeConsumed code);;
      d ← ext (SuperProvisionDevice number password code registrationId);
      set_this (with_provisionResultQueueByKey (insert (result_key d) queue));;
      x ← get_this;
      match primaryDevices x !! uuid d with
      | Some primary => ext (PrimaryAddSecondaryDevice primary d)
      | None => ret tt
      end;;
      ret d
  end.

(** [handleMessage(source, envelopeType, target, encrypted)] *)
Definition handleMessage (source : option Device) (envelopeType : EnvelopeType)
    (target : Device) (encrypted : Buffer) : Proc unit :=
  if negb (bool_decide (is_Some source) || is_sealed_sender envelopeType)
  then throw (AssertionError "No source for non-sealed sender envelope")
  else if negb (deviceId target =? PRIMARY_DEVICE_ID)%Z
  then ret tt
  else
    x ← get_this;
    match primaryDevices x !! uuid target with
    | None => ret tt
    | Some primary => ext (PrimaryHandleEnvelope primary source envelopeType encrypted)
    end.

(** [createSecondaryDevice(primary)] *)
Definition createSecondaryDevice (primary : PrimaryDevice) : Proc Device :=
  registrationId ← ext GenerateRegistrationId;
  d ← ext (RegisterDevice (uuid (device primary)) (pni (device primary))
             (number (device primary)) registrationId);
  keys ← ext (PrimaryGenerateKeys primary d);
  updateDeviceKeys d keys;;
  await_tick;;
  ext (PrimaryAddSecondaryDevice primary d);;
  ret d.

(** [createPrimaryDevice({ profileName, contacts })]. The mark
    [PrimaryDeviceCreated] stands at its [return]. *)
Definition createPrimaryDevice (profileName : string) (contacts : list PrimaryDevice)
    : Proc PrimaryDevice :=
  number ← generateNumber;
  await_tick;;
  uuid ← ext GenerateUUID;
  pni ← ext GenerateUUID;
  registrationId ← ext GenerateRegistrationId;
  d ← ext (RegisterDevice uuid pni number registrationId);
  x ← get_this;
  match emptyAttachment x with
  | None => throw (JsError "Mock#init must be called before starting the server")
  | Some _ =>
      serialized ← ext (SerializeContacts contacts);
      contactsAttachment ← ext (EncryptAttachment serialized);
      contactsCDNKey ← ext (StoreAttachment (blob contactsAttachment));
      x ← get_this;
      trustPublic ← ext (GetPublicKey (trustRoot x));
      publicParams ← ext (GetPublicParams (zkSecret x));
      primary ← ext (NewPrimaryDevice d
                       {| profileName := profileName;
                          contacts := attachmentToPointer contactsCDNKey contactsAttachment;
                          groups := emptyAttachment x;
                          pd_trustRoot := trustPublic;
                          serverPublicParams := publicParams |});
      ext (PrimaryInit primary);;
      set_this (with_primaryDevices (insert number primary));;
      set_this (with_primaryDevices (insert uuid primary));;
      trace (PrimaryDeviceCreated primary);;
      ret primary
  end.

(** The closure [complete] of a pending provision. The mark
    [CompleteResolved] stands at its [return]. *)
Definition complete (pending : PendingProvision) (response : PendingProvisionResponse)
    : Proc Device :=
  pushAndWait (responseQueue pending) response;;
  d ← shift (resultQueue pending);
  trace (CompleteResolved pending d);;
  ret d.

(** [value === s] for a value of a query. *)
Definition strict_equal (value : QueryValue) (s : string) : bool :=
  match value with
  | QueryString x => String.eqb x s
  | _ => false
  end.

(** [getProvisioningResponse(uuid)]. The mark [CodeIssued] stands after
    the [set] of the result queue. The version constant of the compiled
    protos is left to the encoder. *)
Definition getProvisioningResponse (uuid : UUID) : Proc ProvisioningResponse :=
  responseQueue ← createQueue QResponse;
  resultQueue ← createQueue QDevice;
  x ← get_this;
  pushAndWait (provisionQueue x)
    {| responseQueue := responseQueue; resultQueue := resultQueue |};;
  response ← shift responseQueue;
  query ← ext (ParseURL (provisionURL response));
  if negb (strict_equal (query_uuid query) uuid)
  then throw (AssertionError "UUID mismatch")
  else
    match query_pub_key query with
    | QueryMissing | QueryString "" | QueryArray _ =>
        throw (JsError "Expected `pub_key` in provision URL")
    | QueryString pub_key =>
        publicKey ← ext (PublicKeyDeserialize pub_key);
        identityKey ← ext (PrimaryGetIdentityKey (primaryDevice response));
        code ← ext (GetProvisioningCode uuid (number (device (primaryDevice response))));
        set_this (with_provisionResultQueueByCode (insert code resultQueue));;
        trace (CodeIssued code resultQueue);;
        envelopeData ← ext (EncodeProvisionMessage
                              {| identityKeyPrivate := identityKey;
                                 pm_number := number (device (primaryDevice response));
                                 pm_uuid := Api.uuid (device (primaryDevice response));
                                 provisioningCode := code;
                                 pm_profileKey := profileKey (primaryDevice response);
                                 pm_userAgent := userAgent (primaryDevice response);
                                 readReceipts := true |});
        encrypted ← ext (EncryptProvisionMessage envelopeData publicKey);
        envelope ← ext (EncodeProvisionEnvelope encrypted.2 encrypted.1);
        ret {| envelope := envelope |}
    end.

(** ** The scheduler

    A task is a method in flight. *)
Record Task : Type := {
  result : Type;
  body : Proc result;
}.

(** What the harness, the HTTP and WebSocket handlers and the primary
    devices may call, at any time and with any arguments. The last call
    is the upload of an attachment through the base server. *)
Inductive Call : Type :=
| CallListen (port : Z) (host : option string)
| CallClose
| CallAddress
| CallWaitForProvision
| CallWaitForStorageManifest (d : Device) (afterVersion : option double)
| CallCreatePrimaryDevice (profileName : string) (contacts : list PrimaryDevice)
| CallCreateSecondaryDevice (primary : PrimaryDevice)
| CallGetProvisioningResponse (uuid : UUID)
| CallComplete (pending : PendingProvision) (response : PendingProvisionResponse)
| CallHandleMessage (source : option Device) (envelopeType : EnvelopeType)
    (target : Device) (encrypted : Buffer)
| CallUpdateDeviceKeys (d : Device) (keys : DeviceKeys)
| CallProvisionDevice (number password : string) (code : ProvisioningCode)
    (registrationId : RegistrationId)
| CallOnStorageManifestUpdate (d : Device) (version : Long)
| CallStoreAttachment (blob : Buffer).

Definition method (c : Call) : Task :=
  match c with
  | CallListen port host => {| body := listen port host |}
  | CallClose => {| body := close |}
  | CallAddress => {| body := address |}
  | CallWaitForProvision => {| body := waitForProvision |}
  | CallWaitForStorageManifest d afterVersion =>
      {| body := waitForStorageManifest d afterVersion |}
  | CallCreatePrimaryDevice profileName contacts =>
      {| body := createPrimaryDevice profileName contacts |}
  | CallCreateSecondaryDevice primary => {| body := createSecondaryDevice primary |}
  | CallGetProvisioningResponse uuid => {| body := getProvisioningResponse uuid |}
  | CallComplete pending response => {| body := complete pending response |}
  | CallHandleMessage source envelopeType target encrypted =>
      {| body := handleMessage source envelopeType target encrypted |}
  | CallUpdateDeviceKeys d keys => {| body := updateDeviceKeys d keys |}
  | CallProvisionDevice number password code registrationId =>
      {| body := provisionDevice number password code registrationId |}
  | CallOnStorageManifestUpdate d version => {| body := onStorageManifestUpdate d version |}
  | CallStoreAttachment blob => {| body := ext (StoreAttachment blob) |}
  end.

(** One step of the event loop: a method is called and runs its first
    segment, or a waiting method runs its next segment. *)
Inductive step : State * list Task -> State * list Task -> Prop :=
| step_call (c : Call) (s : State) (pool : list Task) :
    step (s, pool)
         ((run_sync (body (method c)) s).2,
          (pool ++ [ {| body := (run_sync (body (method c)) s).1 |} ])%list)
| step_resume (i : nat) (t : Task) (p' : Proc (result t)) (s s' : State) (pool : list Task) :
    pool !! i = Some t ->
    resumes (body t) s p' s' ->
    step (s, pool) (s', <[i := {| body := p' |}]> pool).

(** The states the server goes through after its construction. *)
Definition reachable (init : State) (s : State) : Prop :=
  exists pool, rtc step (init, []) (s, pool).

(** ** Invariants of every interleaving

    [Inv] is to hold whenever no segment is running; [grows] relates a
    state to every later one. A method body is [safe] when each of its
    segments, started in a state where [Inv] holds, ends in such a state
    that is later than the one it started from, whatever the other
    methods did while it waited, as long as they kept to the same rule.
    [s0] is the state the current segment started from. *)
Definition after_answer {A} (Inv : State -> Prop) (grows : State -> State -> Prop)
    (c : WaitOp A) (again : A -> Server -> bool) (next : A -> State -> State -> Prop)
    (s : State) : Prop :=
  forall s1 r s2, Inv s1 -> grows s s1 -> wait_answers c s1 r s2 ->
    match r with
    | inl _ => Inv s2 /\ grows s1 s2
    | inr a => if again a (this s2) then Inv s2 /\ grows s1 s2 else next a s1 s2
    end.

Fixpoint safe {R} (Inv : State -> Prop) (grows : State -> State -> Prop)
    (p : Proc R) (s0 s : State) : Prop :=
  match p with
  | Ret _ | Throw _ => Inv s /\ grows s0 s
  | Sync c k => safe Inv grows (k (do_sync c s).1) s0 (do_sync c s).2
  | Wait c k =>
      Inv s /\ grows s0 s /\
      after_answer Inv grows c (fun _ _ => false) (fun a => safe Inv grows (k a)) s
  | DoWhile c cond k =>
      Inv s /\ grows s0 s /\
      after_answer Inv grows c cond (fun a => safe Inv grows (k a)) s
  end.

(** What is known of a method that waits, in the state it waits in. *)
Definition waiting {R} (Inv : State -> Prop) (grows : State -> State -> Prop)
    (p : Proc R) (s : State) : Prop :=
  match p with
  | Wait c k =>
      after_answer Inv grows c (fun _ _ => false) (fun a => safe Inv grows (k a)) s
  | DoWhile c cond k =>
      after_answer Inv grows c cond (fun a => safe Inv grows (k a)) s
  | _ => True
  end.

(** Every method in flight waits. *)
Definition pool_waiting (Inv : State -> Prop) (grows : State -> State -> Prop)
    (s : State) (pool : list Task) : Prop :=
  Forall (fun t => waiting Inv grows (body t) s) pool.

(** ** The invariants of the properties below *)

(** *** Provisioning results

    Every device that sits in a queue of devices was passed to
    [updateDeviceKeys] before; and in the log, which has the latest mark
    first, every [CompleteResolved] for a device has an
    [UpdateDeviceKeysCalled] for it among the marks before it. *)
Definition queued_devices_updated (m : gmap nat (PromiseQueue Device)) (l : list Event) : Prop :=
  forall a Q d token,
    m !! a = Some Q -> (d, token) ∈ entries Q -> UpdateDeviceKeysCalled d ∈ l.

Definition resolved_after_update (l : list Event) : Prop :=
  forall l1 l2 pending d,
    l = (l1 ++ CompleteResolved pending d :: l2)%list -> UpdateDeviceKeysCalled d ∈ l2.

Definition provision_inv (s : State) : Prop :=
  queued_devices_updated (deviceQueues (heap s)) (log s) /\ resolved_after_update (log s).

(** The log only grows. *)
Definition log_grows (s s' : State) : Prop := log s `suffix_of` log s'.

(** Nothing to remember between segments. *)
Definition any_later (s s' : State) : Prop := True.

(** *** Provisioning codes

    The codes that wait for their device, read off the log: a code is
    there from the moment it is issued to the moment a [provisionDevice]
    takes it. The log has the latest mark first. *)
Fixpoint pending_codes (l : list Event) : gmap ProvisioningCode (Queue QDevice) :=
  match l with
  | [] => ∅
  | CodeIssued code queue :: l' => <[code := queue]> (pending_codes l')
  | CodeConsumed code :: l' => delete code (pending_codes l')
  | _ :: l' => pending_codes l'
  end.


(** No mark of [l] issues or consumes [code]. *)
Definition concerns (code : ProvisioningCode) (e : Event) : bool :=
  match e with
  | CodeIssued c _ | CodeConsumed c => String.eqb c code
  | _ => false
  end.

Definition untouched (code : ProvisioningCode) (l : list Event) : Prop :=
  forallb (fun e => negb (concerns code e)) l = true.

(** *** Generated numbers

    The numbers [generateNumber] returned, latest first. *)
Fixpoint generated_numbers (l : list Event) : list string :=
  match l with
  | [] => []
  | NumberGenerated number :: l' => number :: generated_numbers l'
  | _ :: l' => generated_numbers l'
  end.

Definition numbers_inv (s : State) : Prop :=
  NoDup (generated_numbers (log s)) /\
  forall number, number ∈ generated_numbers (log s) -> number ∈ knownNumbers (this s).

(** *** The empty attachment

    A pointer to the empty blob: it was made by [attachmentToPointer]
    from an encryption of the empty buffer, noted in the log, and from
    the CDN key under which the store holds the encrypted blob. *)
Definition empty_blob_pointer (l : list Event) (store : gmap string Buffer)
    (p : AttachmentPointer) : Prop :=
  exists cdnKey data,
    p = attachmentToPointer cdnKey data /\
    Encrypted [] data ∈ l /\
    store !! cdnKey = Some (blob data).

(** The pointers [listen] has stored in [emptyAttachment], latest
    first. *)
Fixpoint stored_pointers (l : list Event) : list AttachmentPointer :=
  match l with
  | [] => []
  | EmptyAttachmentStored p :: l' => p :: stored_pointers l'
  | _ :: l' => stored_pointers l'
  end.

(** [emptyAttachment] holds the pointer [listen] stored last, and nothing
    before the first; every pointer [listen] stored is a pointer to the
    empty blob; a server that is started has its empty attachment; and
    the [groups] of a primary device that [createPrimaryDevice] returned
    is a pointer [listen] had stored before, the log having the latest
    mark first. *)
Definition attachment_inv (s : State) : Prop :=
  emptyAttachment (this s) = head (stored_pointers (log s)) /\
  (forall p, EmptyAttachmentStored p ∈ log s -> empty_blob_pointer (log s) (cdn s) p) /\
  (is_Some (https (this s)) -> is_Some (emptyAttachment (this s))) /\
  (forall l1 l2 primary,
     log s = (l1 ++ PrimaryDeviceCreated primary :: l2)%list ->
     exists p, groups (pd_config primary) = Some p /\ EmptyAttachmentStored p ∈ l2).

(** The log and the store only grow, and the empty attachment, once set,
    stays set. *)
Definition attachment_grows (s s' : State) : Prop :=
  log s `suffix_of` log s' /\
  cdn s ⊆ cdn s' /\
  (is_Some (emptyAttachment (this s)) -> is_Some (emptyAttachment (this s'))).

(** *** Queue timeouts

    The configuration is the one the constructor made; every queue on the
    heap has its timeout; and the queues the server refers to are on the
    heap. *)
Definition on_heap {t} (h : Heap) (q : Queue t) : Prop :=
  is_Some (queues t h !! addr q).

Definition timeouts_of {T} (m : gmap nat (PromiseQueue T)) (timeout : option Z) : Prop :=
  forall a Q, m !! a = Some Q -> queue_timeout Q = timeout.

Definition timeout_inv (strict : StrictConfig) (s : State) : Prop :=
  config (this s) = strict /\
  (timeouts_of (pendingQueues (heap s)) (timeout strict) /\
   timeouts_of (responseQueues (heap s)) (timeout strict) /\
   timeouts_of (deviceQueues (heap s)) (timeout strict) /\
   timeouts_of (versionQueues (heap s)) (timeout strict)) /\
  on_heap (heap s) (provisionQueue (this s)) /\
  (forall code q, provisionResultQueueByCode (this s) !! code = Some q -> on_heap (heap s) q) /\
  (forall k q, provisionResultQueueByKey (this s) !! k = Some q -> on_heap (heap s) q) /\
  (forall u q, manifestQueueByUuid (this s) !! u = Some q -> on_heap (heap s) q).

(** Queues stay on the heap, and the provision queue stays the same. *)
Definition heap_grows (s s' : State) : Prop :=
  (forall a, is_Some (pendingQueues (heap s) !! a) -> is_Some (pendingQueues (heap s') !! a)) /\
  (forall a, is_Some (responseQueues (heap s) !! a) -> is_Some (responseQueues (heap s') !! a)) /\
  (forall a, is_Some (deviceQueues (heap s) !! a) -> is_Some (deviceQueues (heap s') !! a)) /\
  (forall a, is_Some (versionQueues (heap s) !! a) -> is_Some (versionQueues (heap s') !! a)).
(** *** What a run never takes back

    Between a state of a run and a later one: the fields the constructor
    set hold what they held; a server that was started is started, and
    its empty attachment is set; and nothing leaves the set of known
    numbers, the keys of the primary devices, the queues of manifest
    versions, the store or the log. *)
Definition later (s s' : State) : Prop :=
  (config (this s') = config (this s) /\
   trustRoot (this s') = trustRoot (this s) /\
   zkSecret (this s') = zkSecret (this s) /\
   certificate (this s') = certificate (this s) /\
   provisionQueue (this s') = provisionQueue (this s)) /\
  (is_Some (https (this s)) -> is_Some (https (this s'))) /\
  (is_Some (emptyAttachment (this s)) -> is_Some (emptyAttachment (this s'))) /\
  knownNumbers (this s) ⊆ knownNumbers (this s') /\
  dom (primaryDevices (this s)) ⊆ dom (primaryDevices (this s')) /\
  manifestQueueByUuid (this s) ⊆ manifestQueueByUuid (this s') /\
  cdn s ⊆ cdn s' /\
  log s `suffix_of` log s'.

(** Nothing is asked of a state by itself. *)
Definition any_state (s : State) : Prop := True.

(** *** Registered primary devices

    There is no primary device before the empty attachment is set, and
    every primary device of the map was returned by
    [createPrimaryDevice]. *)
Definition registry_inv (s : State) : Prop :=
  (emptyAttachment (this s) = None -> primaryDevices (this s) = ∅) /\
  (forall k primary,
     primaryDevices (this s) !! k = Some primary -> PrimaryDeviceCreated primary ∈ log s).

(** *** Result queues filed under a device

    The queue was waiting under a code when a [provisionDevice] consumed
    that code: the log, latest mark first, has the mark of the
    consumption, and the marks before it leave the code with this
    queue. *)
Definition consumed_code (l : list Event) (queue : Queue QDevice) : Prop :=
  exists code l1 l2,
    l = (l1 ++ CodeConsumed code :: l2)%list /\ pending_codes l2 !! code = Some queue.

Definition filed_inv (s : State) : Prop :=
  provisionResultQueueByCode (this s) = pending_codes (log s) /\
  forall k queue,
    provisionResultQueueByKey (this s) !! k = Some queue -> consumed_code (log s) queue.


(* ===================================================================== *)
(** * Part 3: properties                                                 *)
(* ===================================================================== *)

(** ** Soundness of [safe]: an invariant of every interleaving *)

Section Interleavings.

Variable Inv : State -> Prop.
Variable grows : State -> State -> Prop.
Hypothesis grows_refl : forall s, grows s s.
Hypothesis grows_trans : forall s1 s2 s3, grows s1 s2 -> grows s2 s3 -> grows s1 s3.

Lemma after_answer_later {A} (c : WaitOp A) again next s s' :
  after_answer Inv grows c again next s -> grows s s' ->
  after_answer Inv grows c again next s'.
Proof.
  intros H Hg s1 r s2 HI Hg1 Hw.
  apply (H s1 r s2); eauto.
Qed.

Lemma waiting_later {R} (p : Proc R) s s' :
  waiting Inv grows p s -> grows s s' -> waiting Inv grows p s'.
Proof.
  destruct p; simpl; auto; intros; eapply after_answer_later; eauto.
Qed.

Lemma safe_run_sync {R} (p : Proc R) s0 s :
  safe Inv grows p s0 s ->
  Inv (run_sync p s).2 /\ grows s0 (run_sync p s).2 /\
  waiting Inv grows (run_sync p s).1 (run_sync p s).2.
Proof.
  revert s. induction p as [r|e|A c k IH|A c k _|A c cond k _]; simpl; intros s Hs.
  - tauto.
  - tauto.
  - apply IH, Hs.
  - tauto.
  - tauto.
Qed.

Lemma resumes_safe {R} (p p' : Proc R) s s' :
  Inv s -> waiting Inv grows p s -> resumes p s p' s' ->
  Inv s' /\ grows s s' /\ waiting Inv grows p' s'.
Proof.
  intros HI Hw Hr. destruct p as [r|e|A c k|A c k|A c cond k]; simpl in Hr; try done.
  - destruct Hr as (r & s1 & Ha & Hr). simpl in Hw.
    specialize (Hw s r s1 HI (grows_refl s) Ha).
    destruct r as [e|a].
    + destruct Hr as [-> ->]. simpl. tauto.
    + destruct Hr as [-> ->]. simpl in Hw. by apply safe_run_sync.
  - destruct Hr as (r & s1 & Ha & Hr). simpl in Hw.
    pose proof (Hw s r s1 HI (grows_refl s) Ha) as Hw1.
    destruct r as [e|a].
    + destruct Hr as [-> ->]. simpl. tauto.
    + destruct (cond a (this s1)).
      * destruct Hr as [-> ->]. destruct Hw1 as [HI1 Hg1].
        split; [done|]. split; [done|]. simpl.
        eapply after_answer_later; eauto.
      * destruct Hr as [-> ->]. by apply safe_run_sync.
Qed.

Lemma pool_waiting_later s s' pool :
  pool_waiting Inv grows s pool -> grows s s' -> pool_waiting Inv grows s' pool.
Proof.
  unfold pool_waiting. intros H Hg. eapply Forall_impl; [exact H|].
  intros t Ht. simpl in *. eapply waiting_later; eauto.
Qed.

Hypothesis methods_safe : forall c s, Inv s -> safe Inv grows (body (method c)) s s.

Lemma step_safe x y :
  step x y -> Inv x.1 -> pool_waiting Inv grows x.1 x.2 ->
  Inv y.1 /\ pool_waiting Inv grows y.1 y.2.
Proof.
  intros Hstep. destruct Hstep as [c s pool|i t p' s s' pool Hi Hr]; simpl; intros HI Hp.
  - destruct (safe_run_sync _ _ _ (methods_safe c s HI)) as (HI' & Hg & Hw).
    split; [done|]. apply Forall_app. split.
    + eapply pool_waiting_later; eauto.
    + apply Forall_singleton. exact Hw.
  - assert (Ht : waiting Inv grows (body t) s).
    { unfold pool_waiting in Hp. rewrite Forall_lookup in Hp. exact (Hp i t Hi). }
    destruct (resumes_safe _ _ _ _ HI Ht Hr) as (HI' & Hg & Hw).
    split; [done|]. apply Forall_insert.
    + eapply pool_waiting_later; eauto.
    + exact Hw.
Qed.

Lemma steps_safe x y :
  rtc step x y -> Inv x.1 -> pool_waiting Inv grows x.1 x.2 ->
  Inv y.1 /\ pool_waiting Inv grows y.1 y.2.
Proof.
  induction 1 as [x|x y z Hxy _ IH]; intros HI Hp.
  - done.
  - destruct (step_safe _ _ Hxy HI Hp). by apply IH.
Qed.

Lemma reachable_safe init s : Inv init -> reachable init s -> Inv s.
Proof.
  intros HI [pool Hr].
  destruct (steps_safe _ _ Hr) as [H _]; simpl; auto.
  apply Forall_nil_2.
Qed.

End Interleavings.

(** ** Tactics for [safe]

    [safe_step] takes one step through a method body: it splits the
    conjunctions of a wait, introduces the answer and the state it
    arrives in, and follows the branches of the body. What is left are
    goals about the invariant and the order of states. *)
Ltac answer_cases H :=
  simpl in H;
  repeat match type of H with
         | _ /\ _ => let H1 := fresh "Ha" in destruct H as [H1 H]
         | exists _, _ => let x := fresh "x" in destruct H as [x H]
         end;
  subst.

Ltac safe_step_with carry :=
  match goal with
  | |- after_answer _ _ _ _ _ _ =>
      let s1 := fresh "s" in
      let r := fresh "r" in
      let s2 := fresh "s" in
      let HI := fresh "HI" in
      let Hg := fresh "Hg" in
      let Hw := fresh "Hw" in
      intros s1 r s2 HI Hg Hw; destruct r; answer_cases Hw; carry HI Hg; simpl
  | |- safe _ _ ?p _ _ =>
      match p with
      | context [match ?x with _ => _ end] => destruct x eqn:?; simpl
      end
  | |- if ?x then _ else _ => destruct x eqn:?; simpl
  | |- safe _ _ _ _ _ /\ _ => split
  | |- _ /\ after_answer _ _ _ _ _ _ => split
  | |- _ /\ _ /\ after_answer _ _ _ _ _ _ => split
  end.

Ltac no_carry HI Hg := idtac.
Ltac safe_step := safe_step_with no_carry.

Ltac unfold_methods :=
  unfold method, listen, close, address, waitForProvision, waitForStorageManifest, manifest_loop,
    onStorageManifestUpdate, manifest_queue, updateDeviceKeys, provisionDevice,
    handleMessage, createSecondaryDevice, createPrimaryDevice, complete,
    getProvisioningResponse, generateNumber, createQueue, updateDeviceKeys;
  simpl.

(** ** Provisioning completes after the keys are uploaded *)

Lemma log_grows_refl s : log_grows s s.
Proof. unfold log_grows. done. Qed.

Lemma log_grows_trans s1 s2 s3 : log_grows s1 s2 -> log_grows s2 s3 -> log_grows s1 s3.
Proof. unfold log_grows. intros. by etrans. Qed.


Lemma suffix_head_in {A} (x : A) l l' : x :: l `suffix_of` l' -> x ∈ l'.
Proof. intros [k ->]. apply elem_of_app. right. left. Qed.

Lemma queued_log_later m l l' :
  queued_devices_updated m l -> l `suffix_of` l' -> queued_devices_updated m l'.
Proof.
  intros H [k ->] a Q d token Ha Hd. apply elem_of_app. right. eauto.
Qed.

Lemma queued_new m l a timeout :
  queued_devices_updated m l ->
  queued_devices_updated (<[a := new_queue timeout]> m) l.
Proof.
  intros H b Q d token Hb Hd. destruct (decide (a = b)) as [->|Hne].
  - rewrite lookup_insert_eq in Hb. injection Hb as <-. simpl in Hd.
    by apply elem_of_nil in Hd.
  - rewrite lookup_insert_ne in Hb by done. eauto.
Qed.

Lemma queued_enqueue m l a d token :
  queued_devices_updated m l -> UpdateDeviceKeysCalled d ∈ l ->
  queued_devices_updated (alter (enqueue d token) a m) l.
Proof.
  intros H Hd b Q d' token' Hb Hd'. destruct (decide (a = b)) as [->|Hne].
  - rewrite lookup_alter_eq in Hb. destruct (m !! b) as [Q0|] eqn:HQ; [|done].
    simpl in Hb. injection Hb as <-. simpl in Hd'.
    apply elem_of_app in Hd' as [Hd'|Hd'].
    + eauto.
    + apply list_elem_of_singleton in Hd'. by injection Hd' as -> ->.
  - rewrite lookup_alter_ne in Hb by done. eauto.
Qed.

Lemma queued_shift_rest m l a Q d token rest :
  queued_devices_updated m l -> m !! a = Some Q -> entries Q = (d, token) :: rest ->
  queued_devices_updated (<[a := with_entries rest Q]> m) l.
Proof.
  intros H Ha HQ b Q' d' token' Hb Hd'. destruct (decide (a = b)) as [->|Hne].
  - rewrite lookup_insert_eq in Hb. injection Hb as <-. simpl in Hd'.
    apply (H b Q d' token' Ha). rewrite HQ. by right.
  - rewrite lookup_insert_ne in Hb by done. eauto.
Qed.

Lemma queued_shift_head m l a Q d token rest :
  queued_devices_updated m l -> m !! a = Some Q -> entries Q = (d, token) :: rest ->
  UpdateDeviceKeysCalled d ∈ l.
Proof.
  intros H Ha HQ. apply (H a Q d token Ha). rewrite HQ. by left.
Qed.

Lemma queued_invalidate m l a token :
  queued_devices_updated m l ->
  queued_devices_updated (alter (invalidate token) a m) l.
Proof.
  intros H b Q d' token' Hb Hd'. destruct (decide (a = b)) as [->|Hne].
  - rewrite lookup_alter_eq in Hb. destruct (m !! b) as [Q0|] eqn:HQ; [|done].
    simpl in Hb. injection Hb as <-. simpl in Hd'.
    apply list_elem_of_filter in Hd' as [_ Hd']. eauto.
  - rewrite lookup_alter_ne in Hb by done. eauto.
Qed.

Definition is_resolved (e : Event) : bool :=
  match e with CompleteResolved _ _ => true | _ => false end.

Lemma resolved_mark l e :
  resolved_after_update l -> is_resolved e = false -> resolved_after_update (e :: l).
Proof.
  intros H He l1 l2 pending d Heq. destruct l1 as [|e1 l1]; simpl in Heq.
  - by simplify_eq.
  - simplify_eq. eauto.
Qed.

Lemma resolved_complete l pending d :
  resolved_after_update l -> UpdateDeviceKeysCalled d ∈ l ->
  resolved_after_update (CompleteResolved pending d :: l).
Proof.
  intros H Hd l1 l2 pending' d' Heq. destruct l1 as [|e1 l1]; simpl in Heq.
  - by simplify_eq.
  - simplify_eq. eauto.
Qed.

Lemma suffix_here {A} (l : list A) : l `suffix_of` l.
Proof. done. Qed.

Ltac provision_leaf :=
  unfold provision_inv, log_grows in *; simpl in *;
  repeat match goal with H : _ /\ _ |- _ => destruct H end;
  repeat split;
  eauto 6 using queued_log_later, queued_new, queued_enqueue, queued_invalidate,
    queued_shift_rest, queued_shift_head, resolved_mark, resolved_complete,
    suffix_head_in, suffix_cons_r, suffix_here.

Lemma provision_methods_safe c s :
  provision_inv s -> safe provision_inv log_grows (body (method c)) s s.
Proof.
  intros HI. destruct c; unfold_methods; repeat safe_step; solve [provision_leaf].
Qed.

(** ** Provisioning codes are consumed once *)

Lemma any_later_refl s : any_later s s.
Proof. done. Qed.

Lemma any_later_trans s1 s2 s3 : any_later s1 s2 -> any_later s2 s3 -> any_later s1 s3.
Proof. done. Qed.



(** ** Generated numbers are distinct *)

Lemma numbers_inv_generate s number :
  numbers_inv s -> bool_decide (number ∈ knownNumbers (this s)) = false ->
  numbers_inv
    (with_log (NumberGenerated number :: log s)
       (with_this (with_knownNumbers (fun known => {[number]} ∪ known) (this s)) s)).
Proof.
  intros [Hnodup Hknown] Hfresh. apply bool_decide_eq_false in Hfresh.
  split; simpl.
  - apply NoDup_cons. split; [|done]. intros Hin. by apply Hfresh, Hknown.
  - intros n Hn. apply elem_of_union. apply elem_of_cons in Hn as [->|Hn].
    + left. by apply elem_of_singleton.
    + right. by apply Hknown.
Qed.

Ltac numbers_leaf :=
  try (apply numbers_inv_generate; assumption);
  unfold numbers_inv, any_later in *; simpl in *;
  repeat match goal with H : _ /\ _ |- _ => destruct H end;
  repeat split; eauto.

Lemma numbers_methods_safe c s :
  numbers_inv s -> safe numbers_inv any_later (body (method c)) s s.
Proof.
  intros HI. destruct c; unfold_methods; repeat safe_step; solve [numbers_leaf].
Qed.
(** ** The empty attachment is allocated at startup *)

Lemma attachment_grows_refl s : attachment_grows s s.
Proof. unfold attachment_grows. done. Qed.

Lemma attachment_grows_trans s1 s2 s3 :
  attachment_grows s1 s2 -> attachment_grows s2 s3 -> attachment_grows s1 s3.
Proof.
  unfold attachment_grows. intros (?&?&?) (?&?&?).
  split; [by etrans|]. split; [by etrans|]. auto.
Qed.

Lemma empty_blob_pointer_later l l' store store' p :
  empty_blob_pointer l store p -> l `suffix_of` l' -> store ⊆ store' ->
  empty_blob_pointer l' store' p.
Proof.
  intros (cdnKey & data & -> & Hl & Hs) [k ->] Hsub.
  exists cdnKey, data. split; [done|]. split.
  - apply elem_of_app. by right.
  - eapply lookup_weaken; eauto.
Qed.

Lemma subseteq_insert_fresh (m m' : gmap string (list byte)) k v :
  <[k := v]> m ⊆ m' -> m !! k = None -> m ⊆ m'.
Proof. intros H Hk. etrans; [|exact H]. by apply insert_subseteq. Qed.

Lemma suffix_here_cons {A} (x : A) l : l `suffix_of` x :: l.
Proof. by apply suffix_cons_r. Qed.

Lemma store_insert_fresh (m : gmap string (list byte)) k v :
  m !! k = None -> m ⊆ <[k := v]> m.
Proof. apply insert_subseteq. Qed.

Lemma mark_later {A} (e : A) l l' : e ∈ l -> l `suffix_of` l' -> e ∈ l'.
Proof. intros He [k ->]. apply elem_of_app. by right. Qed.

Lemma stored_in l p : EmptyAttachmentStored p ∈ l <-> p ∈ stored_pointers l.
Proof.
  induction l as [|e l IH]; simpl.
  - split; intros H; by apply elem_of_nil in H.
  - destruct e; rewrite elem_of_cons, ?IH; try (split; [intros [?|?]; [discriminate|done]|tauto]).
    rewrite elem_of_cons. split; (intros [Heq|?]; [left; congruence|by right]).
Qed.

Lemma stored_head_in l p : head (stored_pointers l) = Some p -> EmptyAttachmentStored p ∈ l.
Proof.
  intros H. apply stored_in. destruct (stored_pointers l); simplify_eq/=. left.
Qed.

(** The pointer a method finds in [emptyAttachment] was stored by
    [listen]. *)
Lemma stored_current s :
  attachment_inv s -> is_Some (emptyAttachment (this s)) ->
  exists p, emptyAttachment (this s) = Some p /\ EmptyAttachmentStored p ∈ log s.
Proof.
  intros (Hhead & _) [p Hp]. exists p. split; [done|].
  apply stored_head_in. by rewrite <- Hhead.
Qed.

(** A segment that leaves [emptyAttachment] and [https] alone and stores
    no pointer keeps the invariant when every primary device it marks as
    created has one of the stored pointers. *)
Lemma attachment_inv_frame s s' :
  attachment_inv s ->
  emptyAttachment (this s') = emptyAttachment (this s) ->
  https (this s') = https (this s) ->
  stored_pointers (log s') = stored_pointers (log s) ->
  log s `suffix_of` log s' ->
  cdn s ⊆ cdn s' ->
  (forall l1 l2 primary,
     log s' = (l1 ++ PrimaryDeviceCreated primary :: l2)%list ->
     (exists l1', log s = (l1' ++ PrimaryDeviceCreated primary :: l2)%list) \/
     exists p, groups (pd_config primary) = Some p /\ EmptyAttachmentStored p ∈ l2) ->
  attachment_inv s'.
Proof.
  intros (Ha & Hb & Hc & Hd) He Hh Hst Hl Hs Hnew. split; [|split; [|split]].
  - by rewrite He, Hst.
  - intros p Hp. apply stored_in in Hp. rewrite Hst in Hp. apply stored_in in Hp.
    eauto using empty_blob_pointer_later.
  - rewrite He, Hh. done.
  - intros l1 l2 primary Heq. destruct (Hnew l1 l2 primary Heq) as [[l1' Hold]|?]; eauto.
Qed.

Lemma attachment_inv_store s s' cdnKey data :
  attachment_inv s ->
  emptyAttachment (this s') = Some (attachmentToPointer cdnKey data) ->
  https (this s') = https (this s) ->
  log s' = EmptyAttachmentStored (attachmentToPointer cdnKey data) :: log s ->
  cdn s' = <[cdnKey := blob data]> (cdn s) ->
  cdn s !! cdnKey = None ->
  Encrypted [] data ∈ log s ->
  attachment_inv s'.
Proof.
  intros (Ha & Hb & Hc & Hd) He Hh Hl Hs Hk Hin. split; [|split; [|split]].
  - by rewrite He, Hl.
  - intros p Hp. rewrite Hl in Hp. rewrite Hl, Hs.
    apply elem_of_cons in Hp as [[= ->]|Hp].
    + exists cdnKey, data. split; [done|]. split; [by right|]. apply lookup_insert_eq.
    + eapply empty_blob_pointer_later; [by apply Hb| by apply suffix_cons_r |].
      by apply insert_subseteq.
  - rewrite He. eauto.
  - intros l1 l2 primary Heq. rewrite Hl in Heq. destruct l1 as [|e l1]; simplify_eq/=. eauto.
Qed.

Lemma attachment_inv_set_https s s' :
  attachment_inv s -> is_Some (emptyAttachment (this s)) ->
  emptyAttachment (this s') = emptyAttachment (this s) ->
  log s' = log s -> cdn s' = cdn s ->
  attachment_inv s'.
Proof.
  intros (Ha & Hb & Hc & Hd) Hsome He Hl Hs. unfold attachment_inv.
  rewrite He, Hl, Hs. eauto.
Qed.

(** What a method knows is carried over a wait: the marks it has seen
    are in the log, and the empty attachment, once found set, is set, to
    a pointer [listen] stored. *)
Ltac attachment_carry HI Hg :=
  let Hl := fresh "Hl" in
  let Hc := fresh "Hc" in
  let He := fresh "He" in
  unfold attachment_grows in Hg; simpl in Hg; destruct Hg as (Hl & Hc & He);
  match type of HI with
  | attachment_inv ?b =>
      repeat match goal with
             | Hm : ?e ∈ log ?x |- _ =>
                 lazymatch x with b => fail | _ => idtac end;
                 let Hnew := fresh "Hm" in
                 assert (e ∈ log b) as Hnew
                   by (eapply mark_later; [exact Hm | solve [eauto using suffix_cons_l]]);
                 clear Hm
             end;
      try match type of Hl with
          | ?m :: _ `suffix_of` _ =>
              let Hnew := fresh "Hm" in
              assert (m ∈ log b) as Hnew by (eapply suffix_head_in; exact Hl)
          end;
      first
        [ let p := fresh "p" in
          let Hp := fresh "Hp" in
          let Hst := fresh "Hm" in
          destruct (stored_current b HI
                      (He ltac:(first [eassumption | eexists; eassumption | eexists; reflexivity])))
            as (p & Hp & Hst);
          clear He
        | clear He ]
  end.

Ltac attachment_grows_leaf :=
  unfold attachment_grows; simpl;
  repeat split;
  eauto using suffix_here, suffix_here_cons, store_insert_fresh.

(** The primary devices marked as created in the log of the state a
    segment ends in: those that were marked before, and the one the
    segment marks. *)
Ltac created_cases :=
  let l1 := fresh "l1" in
  let l2 := fresh "l2" in
  let primary := fresh "primary" in
  let Heq := fresh "Heq" in
  simpl; intros l1 l2 primary Heq;
  first
    [ left; exists l1; exact Heq
    | destruct l1 as [|? l1]; simpl in Heq;
      [ first
          [ discriminate Heq
          | injection Heq as <- <-; right;
            match goal with Hw : pd_config _ = _ |- _ => rewrite Hw end;
            simpl; eexists; split; eassumption ]
      | injection Heq as _ Heq; left; exists l1; exact Heq ] ].

Ltac attachment_leaf :=
  first
    [ assumption
    | eapply attachment_inv_store;
      [ eassumption | reflexivity | reflexivity | reflexivity | reflexivity
      | eassumption | eassumption ]
    | eapply attachment_inv_set_https;
      [ eassumption | solve [eauto] | reflexivity | reflexivity | reflexivity ]
    | eapply attachment_inv_frame;
      [ eassumption | reflexivity | reflexivity | reflexivity
      | simpl; solve [eauto using suffix_here, suffix_here_cons]
      | simpl; solve [eauto using store_insert_fresh]
      | created_cases ] ].

Lemma attachment_methods_safe c s :
  attachment_inv s -> safe attachment_inv attachment_grows (body (method c)) s s.
Proof.
  intros HI. destruct c; unfold_methods;
    repeat safe_step_with attachment_carry;
    repeat match goal with |- _ /\ _ => split end;
    solve [attachment_leaf | attachment_grows_leaf].
Qed.


(** ** Every queue has the configured timeout *)

Lemma heap_grows_refl s : heap_grows s s.
Proof. unfold heap_grows. done. Qed.

Lemma heap_grows_trans s1 s2 s3 : heap_grows s1 s2 -> heap_grows s2 s3 -> heap_grows s1 s3.
Proof. unfold heap_grows. intros (?&?&?&?) (?&?&?&?). repeat split; auto. Qed.

Lemma timeouts_new {T} (m : gmap nat (PromiseQueue T)) a timeout :
  timeouts_of m timeout -> timeouts_of (<[a := new_queue timeout]> m) timeout.
Proof.
  intros H b Q Hb. destruct (decide (a = b)) as [->|Hne].
  - rewrite lookup_insert_eq in Hb. by injection Hb as <-.
  - rewrite lookup_insert_ne in Hb by done. eauto.
Qed.

Lemma timeouts_alter {T} (m : gmap nat (PromiseQueue T)) a f timeout :
  (forall Q, queue_timeout (f Q) = queue_timeout Q) ->
  timeouts_of m timeout -> timeouts_of (alter f a m) timeout.
Proof.
  intros Hf H b Q Hb. destruct (decide (a = b)) as [->|Hne].
  - rewrite lookup_alter_eq in Hb. destruct (m !! b) as [Q0|] eqn:HQ; [|done].
    simpl in Hb. injection Hb as <-. rewrite Hf. eauto.
  - rewrite lookup_alter_ne in Hb by done. eauto.
Qed.

Lemma timeouts_rest {T} (m : gmap nat (PromiseQueue T)) a Q rest timeout :
  timeouts_of m timeout -> m !! a = Some Q ->
  timeouts_of (<[a := with_entries rest Q]> m) timeout.
Proof.
  intros H Ha b Q' Hb. destruct (decide (a = b)) as [->|Hne].
  - rewrite lookup_insert_eq in Hb. injection Hb as <-. simpl. eauto.
  - rewrite lookup_insert_ne in Hb by done. eauto.
Qed.

Lemma kept_alter {T} (m : gmap nat T) a b f :
  is_Some (m !! b) -> is_Some (alter f a m !! b).
Proof.
  intros [Q HQ]. destruct (decide (a = b)) as [->|Hne].
  - rewrite lookup_alter_eq, HQ. simpl. eauto.
  - rewrite lookup_alter_ne by done. eauto.
Qed.

Lemma kept_insert {T} (m : gmap nat T) a b v :
  is_Some (m !! b) -> is_Some (<[a := v]> m !! b).
Proof.
  intros [Q HQ]. destruct (decide (a = b)) as [->|Hne].
  - rewrite lookup_insert_eq. eauto.
  - rewrite lookup_insert_ne by done. eauto.
Qed.

Lemma kept_new {T} (m : gmap nat T) a v : is_Some (<[a := v]> m !! a).
Proof. rewrite lookup_insert_eq. eauto. Qed.

Lemma refs_insert {K} `{Countable K} {t} (m : gmap K (Queue t)) h k q :
  (forall k' q', m !! k' = Some q' -> on_heap h q') -> on_heap h q ->
  forall k' q', <[k := q]> m !! k' = Some q' -> on_heap h q'.
Proof.
  intros Hm Hq k' q' Hk. destruct (decide (k = k')) as [->|Hne].
  - rewrite lookup_insert_eq in Hk. by injection Hk as <-.
  - rewrite lookup_insert_ne in Hk by done. eauto.
Qed.

Lemma refs_delete {K} `{Countable K} {t} (m : gmap K (Queue t)) h k :
  (forall k' q', m !! k' = Some q' -> on_heap h q') ->
  forall k' q', delete k m !! k' = Some q' -> on_heap h q'.
Proof.
  intros Hm k' q' Hk. apply lookup_delete_Some in Hk as [_ Hk]. eauto.
Qed.

Lemma timeouts_enqueue {T} (m : gmap nat (PromiseQueue T)) a v token timeout :
  timeouts_of m timeout -> timeouts_of (alter (enqueue v token) a m) timeout.
Proof. by apply timeouts_alter. Qed.

Lemma timeouts_invalidate {T} (m : gmap nat (PromiseQueue T)) a token timeout :
  timeouts_of m timeout -> timeouts_of (alter (invalidate token) a m) timeout.
Proof. by apply timeouts_alter. Qed.

Ltac timeout_open H :=
  let Hcfg := fresh "Hcfg" in
  let Htp := fresh "Htp" in
  let Htr := fresh "Htr" in
  let Htd := fresh "Htd" in
  let Htv := fresh "Htv" in
  let Hpq := fresh "Hpq" in
  let Hcode := fresh "Hcode" in
  let Hkey := fresh "Hkey" in
  let Hman := fresh "Hman" in
  unfold timeout_inv, on_heap in H; simpl in H;
  destruct H as (Hcfg & (Htp & Htr & Htd & Htv) & Hpq & Hcode & Hkey & Hman).

(** The queues a method holds are still on the heap after a wait. *)
Ltac timeout_carry HI Hg :=
  let Hgp := fresh "Hgp" in
  let Hgr := fresh "Hgr" in
  let Hgd := fresh "Hgd" in
  let Hgv := fresh "Hgv" in
  unfold heap_grows in Hg; simpl in Hg; destruct Hg as (Hgp & Hgr & Hgd & Hgv);
  match type of HI with
  | timeout_inv _ ?b =>
      timeout_open HI;
      repeat match goal with
             | q : Queue QDevice |- _ =>
                 lazymatch goal with
                 | _ : is_Some (deviceQueues (heap b) !! addr q) |- _ => fail
                 | _ => idtac
                 end;
                 assert (is_Some (deviceQueues (heap b) !! addr q))
                   by (apply Hgd; eauto 6 using kept_alter, kept_insert, kept_new)
             | _ : context [fresh (dom (deviceQueues (heap ?x)))] |- _ =>
                 lazymatch goal with
                 | _ : is_Some (deviceQueues (heap b) !! fresh (dom (deviceQueues (heap x)))) |- _ =>
                     fail
                 | _ => idtac
                 end;
                 assert (is_Some (deviceQueues (heap b) !! fresh (dom (deviceQueues (heap x)))))
                   by (apply Hgd; eauto 6 using kept_alter, kept_insert, kept_new)
             end
  end.

Ltac timeout_refs :=
  let k := fresh "k" in
  let q := fresh "q" in
  let Hk := fresh "Hk" in
  intros k q Hk;
  first [ apply lookup_insert_Some in Hk as [[<- <-]|[_ Hk]]
        | apply lookup_delete_Some in Hk as [_ Hk]
        | idtac ];
  eauto 6 using kept_alter, kept_insert, kept_new.

Ltac timeout_leaf :=
  unfold timeout_inv, heap_grows, on_heap; simpl;
  repeat match goal with
         | H : config (this ?x) = _ |- context [config (this ?x)] => rewrite H
         end;
  repeat match goal with |- _ /\ _ => split end;
  first
    [ assumption
    | solve [eauto 6 using timeouts_new, timeouts_enqueue, timeouts_invalidate, timeouts_rest,
               kept_alter, kept_insert, kept_new]
    | solve [timeout_refs] ].

Lemma timeout_methods_safe strict c s :
  timeout_inv strict s -> safe (timeout_inv strict) heap_grows (body (method c)) s s.
Proof.
  intros HI. timeout_open HI.
  destruct c; unfold_methods; repeat safe_step_with timeout_carry;
    repeat match goal with |- _ /\ _ => split end;
    solve [timeout_leaf].
Qed.

(** ** The state after construction satisfies the invariants *)

Section Constructed.

Variable certs : Certs.
Variable given : Config.
Variable trustPrivate : PrivateKey.
Variable zkSecretParams serverCertificate : Buffer.

Let init : State := constructor certs given trustPrivate zkSecretParams serverCertificate.

Lemma provision_inv_init : provision_inv init.
Proof.
  split; simpl.
  - intros a Q d token Ha. by rewrite lookup_empty in Ha.
  - intros l1 l2 pending d Heq. by destruct l1.
Qed.


Lemma numbers_inv_init : numbers_inv init.
Proof.
  split; simpl.
  - apply NoDup_nil_2.
  - intros number Hin. by apply elem_of_nil in Hin.
Qed.

Lemma attachment_inv_init : attachment_inv init.
Proof.
  split; [|split; [|split]]; simpl.
  - done.
  - intros p Hp. by apply elem_of_nil in Hp.
  - intros [x Hx]. discriminate.
  - intros l1 l2 primary Heq. by destruct l1.
Qed.

Lemma timeout_inv_init : timeout_inv (strict_config certs given) init.
Proof.
  unfold timeout_inv, on_heap. simpl.
  repeat match goal with |- _ /\ _ => split end;
    try done; try (intros a Q Ha; by rewrite lookup_empty in Ha).
  apply timeouts_new. intros a Q Ha. by rewrite lookup_empty in Ha.
Qed.

(** C1. Whenever the promise of [complete] has resolved with a device,
    [updateDeviceKeys] was called for that device before: in the log of
    every state the server reaches, each mark that [complete] resolved
    with [d] has a mark that [updateDeviceKeys] was entered for [d] among
    the earlier ones. Nothing else fulfils a result queue: every device
    that sits in a queue of devices was passed to [updateDeviceKeys]. *)
Theorem complete_resolves_after_updateDeviceKeys (s : State) :
  reachable init s ->
  (forall l1 l2 pending d,
     log s = (l1 ++ CompleteResolved pending d :: l2)%list ->
     UpdateDeviceKeysCalled d ∈ l2) /\
  (forall a Q d token,
     deviceQueues (heap s) !! a = Some Q -> (d, token) ∈ entries Q ->
     UpdateDeviceKeysCalled d ∈ log s).
Proof.
  intros Hr.
  destruct (reachable_safe provision_inv log_grows log_grows_refl log_grows_trans
              provision_methods_safe init s provision_inv_init Hr) as [Hq Hl].
  split.
  - exact Hl.
  - exact Hq.
Qed.

(** C6. The numbers [generateNumber] returned to [createPrimaryDevice],
    in every state the server reaches, are pairwise distinct and all
    recorded in [knownNumbers]; and a step of the loop of
    [generateNumber] draws again when the number drawn is known, and
    otherwise records the number and returns it. *)
Theorem generated_numbers_distinct (s : State) :
  reachable init s ->
  NoDup (generated_numbers (log s)) /\
  (forall number, number ∈ generated_numbers (log s) -> number ∈ knownNumbers (this s)) /\
  (forall s1 p' s2,
     resumes generateNumber s1 p' s2 ->
     (exists e, p' = Throw e /\ s2 = s1) \/
     (exists number, number ∈ knownNumbers (this s1) /\ p' = generateNumber /\ s2 = s1) \/
     (exists number, (number ∉ knownNumbers (this s1)) /\ p' = Ret number /\
        knownNumbers (this s2) = {[number]} ∪ knownNumbers (this s1) /\
        log s2 = NumberGenerated number :: log s1)).
Proof.
  intros Hr.
  destruct (reachable_safe numbers_inv any_later any_later_refl any_later_trans
              numbers_methods_safe init s numbers_inv_init Hr) as [Hn Hk].
  split; [exact Hn|]. split; [exact Hk|].
  intros s1 p' s2 (r & s1' & Ha & Hres). simpl in Ha.
  destruct r as [e|number]; subst s1'.
  - left. exists e. tauto.
  - right. destruct (bool_decide (number ∈ knownNumbers (this s1))) eqn:Hd.
    + left. exists number. apply bool_decide_eq_true in Hd. tauto.
    + right. exists number. apply bool_decide_eq_false in Hd.
      destruct Hres as [-> ->]. simpl. tauto.
Qed.

(** C7. In every state the server reaches: once the server is started
    ([https] is set), [emptyAttachment] holds a pointer to the empty
    blob, one that [attachmentToPointer] made from an encryption of the
    zero-length buffer and from the CDN key under which the store holds
    the encrypted blob. [emptyAttachment] is the pointer [listen] stored
    last, and every pointer [listen] stored is such a pointer to the
    empty blob. The [groups] attachment of every primary device that
    [createPrimaryDevice] returned is a pointer [listen] had stored
    before the device was returned (the log has the latest mark first);
    so when [listen] has stored one pointer, the [groups] of every
    primary device is the [emptyAttachment] of the server. *)
Theorem empty_attachment_preallocated (s : State) :
  reachable init s ->
  (is_Some (https (this s)) ->
   exists p, emptyAttachment (this s) = Some p /\
     exists cdnKey data, p = attachmentToPointer cdnKey data /\
       Encrypted [] data ∈ log s /\ cdn s !! cdnKey = Some (blob data)) /\
  emptyAttachment (this s) = head (stored_pointers (log s)) /\
  (forall p, EmptyAttachmentStored p ∈ log s ->
     exists cdnKey data, p = attachmentToPointer cdnKey data /\
       Encrypted [] data ∈ log s /\ cdn s !! cdnKey = Some (blob data)) /\
  (forall l1 l2 primary,
     log s = (l1 ++ PrimaryDeviceCreated primary :: l2)%list ->
     exists p, groups (pd_config primary) = Some p /\
       EmptyAttachmentStored p ∈ l2 /\
       exists cdnKey data, p = attachmentToPointer cdnKey data /\
         Encrypted [] data ∈ log s /\ cdn s !! cdnKey = Some (blob data)) /\
  (forall p, stored_pointers (log s) = [p] ->
     forall primary, PrimaryDeviceCreated primary ∈ log s ->
       groups (pd_config primary) = Some p /\ emptyAttachment (this s) = Some p).
Proof.
  intros Hr.
  destruct (reachable_safe attachment_inv attachment_grows attachment_grows_refl
              attachment_grows_trans attachment_methods_safe init s
              attachment_inv_init Hr) as (Ha & Hb & Hc & Hd).
  assert (Hcreated : forall l1 l2 primary,
            log s = (l1 ++ PrimaryDeviceCreated primary :: l2)%list ->
            exists p, groups (pd_config primary) = Some p /\
              EmptyAttachmentStored p ∈ l2 /\ EmptyAttachmentStored p ∈ log s).
  { intros l1 l2 primary Heq. destruct (Hd l1 l2 primary Heq) as (p & Hp & Hin).
    exists p. split; [done|]. split; [done|]. rewrite Heq.
    apply elem_of_app. right. by right. }
  split; [|split; [|split; [|split]]].
  - intros Hs. destruct (Hc Hs) as [p Hp]. exists p. split; [done|].
    apply Hb, stored_head_in. by rewrite <- Ha.
  - exact Ha.
  - exact Hb.
  - intros l1 l2 primary Heq. destruct (Hcreated l1 l2 primary Heq) as (p & Hp & Hin & Hlog).
    exists p. split; [done|]. split; [done|]. by apply Hb.
  - intros p Hone primary Hin. split.
    + apply list_elem_of_split in Hin as (l1 & l2 & Heq).
      destruct (Hcreated l1 l2 primary Heq) as (q & Hq & _ & Hlog).
      apply stored_in in Hlog. rewrite Hone in Hlog.
      apply list_elem_of_singleton in Hlog. by subst q.
    + by rewrite Ha, Hone.
Qed.

(** C8. The timeout the server keeps is the configured one, and 60000
    when the configuration has no [timeout]; in every state the server
    reaches, every queue on the heap was constructed with it, and the
    provision queue and the queues of the three maps are on the heap. *)
Theorem queues_have_configured_timeout (s : State) :
  reachable init s ->
  (cfg_timeout given = Missing ->
   timeout (config (this s)) = Some DEFAULT_API_TIMEOUT /\ DEFAULT_API_TIMEOUT = 60000) /\
  (forall v, cfg_timeout given = Holds v -> timeout (config (this s)) = v) /\
  (forall t a Q, queues t (heap s) !! a = Some Q ->
     queue_timeout Q = timeout (config (this s))) /\
  (exists Q, queues QPending (heap s) !! addr (provisionQueue (this s)) = Some Q /\
     queue_timeout Q = timeout (config (this s))) /\
  (forall code q, provisionResultQueueByCode (this s) !! code = Some q ->
     exists Q, queues QDevice (heap s) !! addr q = Some Q /\
       queue_timeout Q = timeout (config (this s))) /\
  (forall k q, provisionResultQueueByKey (this s) !! k = Some q ->
     exists Q, queues QDevice (heap s) !! addr q = Some Q /\
       queue_timeout Q = timeout (config (this s))) /\
  (forall u q, manifestQueueByUuid (this s) !! u = Some q ->
     exists Q, queues QVersion (heap s) !! addr q = Some Q /\
       queue_timeout Q = timeout (config (this s))).
Proof.
  intros Hr.
  pose proof (reachable_safe (timeout_inv (strict_config certs given)) heap_grows
                heap_grows_refl heap_grows_trans
                (timeout_methods_safe (strict_config certs given)) init s
                timeout_inv_init Hr) as HI.
  timeout_open HI. rewrite Hcfg.
  assert (Hall : forall t a Q, queues t (heap s) !! a = Some Q ->
                   queue_timeout Q = timeout (strict_config certs given)).
  { intros t; destruct t; simpl; eauto. }
  repeat match goal with |- _ /\ _ => split end.
  - intros Hm. simpl. rewrite Hm. done.
  - intros v Hv. simpl. rewrite Hv. done.
  - exact Hall.
  - destruct Hpq as [Q HQ]. exists Q. split; [done|]. by apply (Hall QPending _ _ HQ).
  - intros code q Hq. destruct (Hcode code q Hq) as [Q HQ].
    exists Q. split; [done|]. by apply (Hall QDevice _ _ HQ).
  - intros k q Hq. destruct (Hkey k q Hq) as [Q HQ].
    exists Q. split; [done|]. by apply (Hall QDevice _ _ HQ).
  - intros u q Hq. destruct (Hman u q Hq) as [Q HQ].
    exists Q. split; [done|]. by apply (Hall QVersion _ _ HQ).
Qed.



End Constructed.
(** ** The comparison of doubles *)

Lemma SFcompare_antisym (x y : spec_float) :
  SFcompare y x = option_map CompOpp (SFcompare x y).
Proof.
  destruct x as [sx|sx| |sx mx ex], y as [sy|sy| |sy my ey]; simpl;
    try destruct sx; try destruct sy; try reflexivity;
    rewrite (Z.compare_antisym ex ey);
    pose proof (Pos.compare_cont_antisym mx my Eq) as H; simpl in H;
    destruct (ex ?= ey)%Z; simpl; try reflexivity; rewrite <- H;
    by destruct (Pos.compare_cont Eq mx my).
Qed.

Lemma SFcompare_refl (x : spec_float) : x <> S754_nan -> SFcompare x x = Some Eq.
Proof.
  destruct x as [s|s| |s m e]; simpl; intros H; try done; destruct s; try done;
    rewrite (Z.compare_refl e : IntDef.Z.compare e e = Eq),
      (Pos.compare_cont_refl m Eq : PosDef.Pos.compare_cont Eq m m = Eq); done.
Qed.

Lemma is_nan_spec (f : float) : is_nan f = true <-> Prim2SF f = S754_nan.
Proof.
  unfold is_nan. rewrite FloatAxioms.eqb_spec. unfold SFeqb. split.
  - intros H. destruct (Prim2SF f) as [s|s| |s m e] eqn:Hf; try done;
      rewrite SFcompare_refl in H; done.
  - intros ->. done.
Qed.

(** [x <= NaN] is false. *)
Lemma leb_nan_r (x after : float) : is_nan after = true -> (x <=? after)%float = false.
Proof.
  intros H. apply is_nan_spec in H. rewrite FloatAxioms.leb_spec, H. unfold SFleb.
  by destruct (Prim2SF x).
Qed.

(** Without [NaN], [x <= y] is false exactly when [y < x]. *)
Lemma not_leb_ltb (x after : float) :
  is_nan x = false -> is_nan after = false ->
  ((x <=? after)%float = false <-> (after <? x)%float = true).
Proof.
  intros Hx Ha. rewrite FloatAxioms.leb_spec, FloatAxioms.ltb_spec. unfold SFleb, SFltb.
  rewrite (SFcompare_antisym (Prim2SF x) (Prim2SF after)).
  assert (Hx' : Prim2SF x <> S754_nan).
  { intros H. apply is_nan_spec in H. congruence. }
  assert (Ha' : Prim2SF after <> S754_nan).
  { intros H. apply is_nan_spec in H. congruence. }
  destruct (SFcompare (Prim2SF x) (Prim2SF after)) as [[| |]|] eqn:Hc; simpl; try done.
  destruct (Prim2SF x) as [| | |], (Prim2SF after) as [| | |]; try done.
Qed.


(** ** Single segments *)

(** [onStorageManifestUpdate] puts the number of the version at the end
    of the queue of the account, when the queue is there. *)
Lemma onStorageManifestUpdate_pushes (d : Device) (version : Long) (s : State) queue :
  manifestQueueByUuid (this s) !! uuid d = Some queue ->
  run_sync (onStorageManifestUpdate d version) s =
    (Ret tt,
     with_heap (set_queues QVersion
                  (alter (enqueue (toNumber version) None) (addr queue)
                     (versionQueues (heap s)))
                  (heap s)) s).
Proof. intros Hq. unfold onStorageManifestUpdate, manifest_queue. simpl. by rewrite Hq. Qed.

(** C3, as the code has it. A call of [waitForStorageManifest] with
    [afterVersion] defined runs into the loop
    [do { version = await queue.shift() } while (version <= afterVersion)]
    on the queue of versions of the account of the device, created if it
    was not there. Each step of the loop takes the version at the head
    of that queue, which is gone from the queue then; the call waits
    again when [version <= afterVersion] holds of the two doubles, and
    returns when it does not; and a wait that times out throws. Whenever
    the queue has a version at its head the step can be taken. When
    neither number is [NaN], the call so returns exactly on a version
    strictly above [afterVersion]; when [afterVersion] is [NaN] the
    comparison is false, and the call returns on the first version. *)
Theorem manifest_wait_returns_on_later_version (d : Device) (after : double) (s : State) :
  let parked := run_sync (waitForStorageManifest d (Some after)) s in
  exists queue,
    manifestQueueByUuid (this parked.2) !! uuid d = Some queue /\
    (forall q, manifestQueueByUuid (this s) !! uuid d = Some q -> queue = q /\ parked.2 = s) /\
    parked.1 =
      DoWhile (Shift QVersion queue) (fun version _ => (version <=? after)%float)
        (fun _ => Ret tt) /\
    (forall s1 p' s2,
       resumes parked.1 s1 p' s2 ->
       (p' = Throw QueueTimeout /\ s2 = s1) \/
       exists Q version token rest,
         versionQueues (heap s1) !! addr queue = Some Q /\
         entries Q = (version, token) :: rest /\
         versionQueues (heap s2) !! addr queue = Some (with_entries rest Q) /\
         (((version <=? after)%float = true /\ p' = parked.1) \/
          ((version <=? after)%float = false /\ p' = Ret tt))) /\
    (forall s1 Q version token rest,
       versionQueues (heap s1) !! addr queue = Some Q ->
       entries Q = (version, token) :: rest ->
       resumes parked.1 s1 (if (version <=? after)%float then parked.1 else Ret tt)
         (with_heap
            (ack token
               (set_queues QVersion
                  (<[addr queue := with_entries rest Q]> (versionQueues (heap s1)))
                  (heap s1))) s1)) /\
    (forall s1, resumes parked.1 s1 (Throw QueueTimeout) s1) /\
    (is_nan after = false ->
     forall version, is_nan version = false ->
       ((version <=? after)%float = false <-> (after <? version)%float = true)) /\
    (is_nan after = true -> forall version, (version <=? after)%float = false).
Proof.
  set (loop := fun queue : Queue QVersion =>
         DoWhile (R := unit) (Shift QVersion queue)
           (fun version (_ : Server) => (version <=? after)%float) (fun _ => Ret tt)).
  assert (Hloop : forall queue s1 p' s2,
            resumes (loop queue) s1 p' s2 ->
            (p' = Throw QueueTimeout /\ s2 = s1) \/
            exists Q version token rest,
              versionQueues (heap s1) !! addr queue = Some Q /\
              entries Q = (version, token) :: rest /\
              versionQueues (heap s2) !! addr queue = Some (with_entries rest Q) /\
              (((version <=? after)%float = true /\ p' = loop queue) \/
               ((version <=? after)%float = false /\ p' = Ret tt))).
  { intros queue s1 p' s2 (r & s1' & Ha & Hres). simpl in Ha. destruct r as [e|version].
    - destruct Ha as [-> ->]. destruct Hres as [-> ->]. by left.
    - destruct Ha as (Q & token & rest & HQ & He & ->). right.
      exists Q, version, token, rest. split; [done|]. split; [done|].
      simpl in Hres. destruct (version <=? after)%float eqn:Hv.
      + destruct Hres as [-> ->]. simpl. split; [apply lookup_insert_eq|]. by left.
      + destruct Hres as [-> ->]. simpl. split; [apply lookup_insert_eq|]. by right. }
  assert (Hstep : forall queue s1 Q version token rest,
            versionQueues (heap s1) !! addr queue = Some Q ->
            entries Q = (version, token) :: rest ->
            resumes (loop queue) s1
              (if (version <=? after)%float then loop queue else Ret tt)
              (with_heap
                 (ack token
                    (set_queues QVersion
                       (<[addr queue := with_entries rest Q]> (versionQueues (heap s1)))
                       (heap s1))) s1)).
  { intros queue s1 Q version token rest HQ He.
    exists (inr version). eexists. split.
    - exists Q, token, rest. split; [exact HQ|]. split; [exact He|reflexivity].
    - simpl. destruct (version <=? after)%float; split; reflexivity. }
  assert (Htimeout : forall queue s1, resumes (loop queue) s1 (Throw QueueTimeout) s1).
  { intros queue s1. exists (inl QueueTimeout), s1. split; [by split|by split]. }
  assert (Hdoubles :
            (is_nan after = false ->
             forall version, is_nan version = false ->
               ((version <=? after)%float = false <-> (after <? version)%float = true)) /\
            (is_nan after = true -> forall version, (version <=? after)%float = false)).
  { split; [intros Ha version Hv; by apply not_leb_ltb|intros Ha version; by apply leb_nan_r]. }
  unfold waitForStorageManifest, manifest_queue. simpl.
  destruct (manifestQueueByUuid (this s) !! uuid d) as [q|] eqn:Hq; simpl.
  - exists q. split; [done|]. split; [by intros ? [= <-]|]. split; [done|].
    split; [exact (Hloop q)|]. split; [exact (Hstep q)|]. split; [exact (Htimeout q)|].
    exact Hdoubles.
  - pose (q := {| addr := fresh (dom (versionQueues (heap s))) |} : Queue QVersion).
    exists q. split; [apply lookup_insert_eq|]. split; [done|]. split; [done|].
    split; [exact (Hloop q)|]. split; [exact (Hstep q)|]. split; [exact (Htimeout q)|].
    exact Hdoubles.
Qed.


Definition no_source_message : string := "No source for non-sealed sender envelope".

(** C9, as the code has it. [handleMessage] never changes the state of
    the server. It first asserts that the message has a source or is a
    sealed-sender envelope, and throws when it does not. When the
    assertion holds and the target is not the primary device, or no
    primary device is registered for the uuid of the target, it returns
    without a call to the envelope handler. When the assertion holds, the
    target is the primary device and a primary device is registered, it
    hands the envelope to the handler of that primary device; and it
    calls out in no other case. *)
Theorem handleMessage_delivers_to_registered_primary
    (source : option Device) (envelopeType : EnvelopeType) (target : Device)
    (encrypted : Buffer) (s : State) :
  let after := run_sync (handleMessage source envelopeType target encrypted) s in
  after.2 = s /\
  (source = None -> envelopeType <> SealedSender ->
   after.1 = Throw (AssertionError no_source_message)) /\
  (is_Some source \/ envelopeType = SealedSender ->
   deviceId target <> PRIMARY_DEVICE_ID \/ primaryDevices (this s) !! uuid target = None ->
   after.1 = Ret tt) /\
  (forall primary,
     is_Some source \/ envelopeType = SealedSender ->
     deviceId target = PRIMARY_DEVICE_ID ->
     primaryDevices (this s) !! uuid target = Some primary ->
     after.1 = ext (PrimaryHandleEnvelope primary source envelopeType encrypted)) /\
  (forall A (c : WaitOp A) k,
     after.1 = Wait c k ->
     deviceId target = PRIMARY_DEVICE_ID /\
     exists primary, primaryDevices (this s) !! uuid target = Some primary).
Proof.
  unfold handleMessage, PRIMARY_DEVICE_ID, no_source_message.
  destruct source as [src|]; destruct envelopeType as [|code]; simpl;
    destruct (Z.eqb_spec (deviceId target) 1) as [Hd|Hd]; simpl;
    try destruct (primaryDevices (this s) !! uuid target) as [primary|] eqn:Hp; simpl;
    (split; [reflexivity|]);
    repeat match goal with |- _ /\ _ => split end;
    intros;
    repeat match goal with
           | H : _ \/ _ |- _ => destruct H
           | H : is_Some None |- _ => destruct H; discriminate
           end;
    simplify_eq; try congruence; eauto.
Qed.

(** C10. [listen] on a server that is listening throws
    "Already listening"; [close] and [address] on a server that is not
    listening throw "Not listening"; each is thrown in the first segment
    of the call, before any call that leaves the class, and the state is
    the one the call found. *)
Theorem lifecycle_methods_check_listening (port : Z) (host : option string) (s : State) :
  (is_Some (https (this s)) ->
   run_sync (listen port host) s = (Throw (JsError "Already listening"), s)) /\
  (https (this s) = None ->
   run_sync close s = (Throw (JsError "Not listening"), s) /\
   run_sync address s = (Throw (JsError "Not listening"), s)).
Proof.
  split.
  - intros [server Hs]. unfold listen. simpl. by rewrite Hs.
  - intros Hs. unfold close, address. simpl. by rewrite Hs.
Qed.

(** ** The order of the states of a run *)

Section Later.

Variable Inv : State -> Prop.
Variable grows : State -> State -> Prop.
Hypothesis grows_refl : forall s, grows s s.
Hypothesis grows_trans : forall s1 s2 s3, grows s1 s2 -> grows s2 s3 -> grows s1 s3.
Hypothesis methods_safe : forall c s, Inv s -> safe Inv grows (body (method c)) s s.

Lemma step_later x y :
  step x y -> Inv x.1 -> pool_waiting Inv grows x.1 x.2 -> grows x.1 y.1.
Proof.
  intros Hstep. destruct Hstep as [c s pool|i t p' s s' pool Hi Hr]; simpl; intros HI Hp.
  - by destruct (safe_run_sync Inv grows _ _ _ (methods_safe c s HI)) as (_ & Hg & _).
  - assert (Ht : waiting Inv grows (body t) s).
    { unfold pool_waiting in Hp. rewrite Forall_lookup in Hp. exact (Hp i t Hi). }
    by destruct (resumes_safe Inv grows grows_refl grows_trans _ _ _ _ HI Ht Hr) as (_ & Hg & _).
Qed.

Lemma steps_later x y :
  rtc step x y -> Inv x.1 -> pool_waiting Inv grows x.1 x.2 -> grows x.1 y.1.
Proof.
  induction 1 as [x|x y z Hxy _ IH]; intros HI Hp.
  - apply grows_refl.
  - destruct (step_safe Inv grows grows_refl grows_trans methods_safe _ _ Hxy HI Hp).
    eapply grows_trans; [by eapply step_later|]. by apply IH.
Qed.

(** A state of a run and a state the run goes on to. *)
Lemma run_later init s pool s' pool' :
  Inv init -> rtc step (init, []) (s, pool) -> rtc step (s, pool) (s', pool') -> grows s s'.
Proof.
  intros HI Hr Hr'.
  destruct (steps_safe Inv grows grows_refl grows_trans methods_safe _ _ Hr) as [HIs Hp];
    simpl; auto; [apply Forall_nil_2|].
  exact (steps_later _ _ Hr' HIs Hp).
Qed.

End Later.

Lemma later_refl s : later s s.
Proof. unfold later. repeat split; done. Qed.

Lemma later_trans s1 s2 s3 : later s1 s2 -> later s2 s3 -> later s1 s3.
Proof.
  unfold later.
  intros ((?&?&?&?&?)&?&?&?&?&?&?&?) ((?&?&?&?&?)&?&?&?&?&?&?&?).
  repeat split; try congruence; auto; by etrans.
Qed.

Lemma known_added (number : string) (known : gset string) : known ⊆ {[number]} ∪ known.
Proof. apply union_subseteq_r. Qed.

Lemma registered_twice {V} (m : gmap string V) k1 k2 v :
  dom m ⊆ dom (<[k2 := v]> (<[k1 := v]> m)).
Proof. rewrite !dom_insert. set_solver. Qed.

Lemma queue_added {V} (m : gmap string V) k v : m !! k = None -> m ⊆ <[k := v]> m.
Proof. apply insert_subseteq. Qed.

Ltac later_leaf :=
  unfold any_state, later; simpl;
  repeat match goal with |- _ /\ _ => split end;
  eauto using suffix_here, suffix_here_cons, known_added, registered_twice, queue_added.

Lemma later_methods_safe c s :
  any_state s -> safe any_state later (body (method c)) s s.
Proof.
  intros _. destruct c; unfold_methods; repeat safe_step;
    repeat match goal with |- _ /\ _ => split end;
    solve [later_leaf].
Qed.

(** ** Primary devices are registered by [createPrimaryDevice] alone *)

Lemma registry_inv_frame s s' :
  registry_inv s ->
  primaryDevices (this s') = primaryDevices (this s) ->
  (emptyAttachment (this s') = None -> emptyAttachment (this s) = None) ->
  log s `suffix_of` log s' ->
  registry_inv s'.
Proof.
  intros [Hnone Hcreated] Hp He [l Hl]. split.
  - intros H. rewrite Hp. auto.
  - intros key primary Hk. rewrite Hp in Hk. rewrite Hl. apply elem_of_app. right. eauto.
Qed.

Lemma registry_inv_register s s' number uuid primary :
  registry_inv s -> is_Some (emptyAttachment (this s)) ->
  primaryDevices (this s') = <[uuid := primary]> (<[number := primary]> (primaryDevices (this s))) ->
  emptyAttachment (this s') = emptyAttachment (this s) ->
  log s' = PrimaryDeviceCreated primary :: log s ->
  registry_inv s'.
Proof.
  intros [Hnone Hcreated] [p Hp] Hm He Hl. split.
  - rewrite He, Hp. discriminate.
  - intros key q Hk. rewrite Hm in Hk. rewrite Hl.
    apply lookup_insert_Some in Hk as [[_ <-]|[_ Hk]]; [left|].
    apply lookup_insert_Some in Hk as [[_ <-]|[_ Hk]]; [left|].
    right. eauto.
Qed.

(** A method that has found the empty attachment set finds it set after
    a wait. *)
Ltac registry_carry HI Hg :=
  let Hl := fresh "Hl" in
  let Hc := fresh "Hc" in
  let He := fresh "He" in
  unfold attachment_grows in Hg; simpl in Hg; destruct Hg as (Hl & Hc & He);
  first [ specialize (He ltac:(first [eassumption | eexists; eassumption]))
        | clear He ].

Ltac registry_leaf :=
  first
    [ assumption
    | eapply registry_inv_register; [eassumption | eassumption | reflexivity..]
    | eapply registry_inv_frame;
      [ eassumption | reflexivity | simpl; solve [auto; discriminate]
      | simpl; solve [eauto using suffix_here, suffix_here_cons] ] ].

Lemma registry_methods_safe c s :
  registry_inv s -> safe registry_inv attachment_grows (body (method c)) s s.
Proof.
  intros HI. destruct c; unfold_methods;
    repeat safe_step_with registry_carry;
    repeat match goal with |- _ /\ _ => split end;
    solve [registry_leaf | attachment_grows_leaf].
Qed.

(** ** Result queues reach a device through a code *)

Lemma consumed_start code queue l l' :
  pending_codes l !! code = Some queue -> CodeConsumed code :: l `suffix_of` l' ->
  consumed_code l' queue.
Proof. intros Hq [l1 ->]. by exists code, l1, l. Qed.

Lemma consumed_later queue l l' :
  consumed_code l queue -> l `suffix_of` l' -> consumed_code l' queue.
Proof.
  intros (code & l1 & l2 & -> & Hq) [k ->].
  exists code, (k ++ l1)%list, l2. by rewrite <- app_assoc.
Qed.

Lemma consumed_cons queue e l : consumed_code l queue -> consumed_code (e :: l) queue.
Proof. intros H. eapply consumed_later; [exact H|]. by apply suffix_cons_r. Qed.

(** A method that took a queue from under a code, or holds one that was
    taken, knows after a wait that the code was consumed. *)
Ltac filed_carry HI Hg :=
  unfold log_grows in Hg; simpl in Hg;
  match type of HI with
  | filed_inv ?b =>
      try match goal with
          | Hq : provisionResultQueueByCode (this ?x) !! ?c = Some ?q, Hx : filed_inv ?x |- _ =>
              assert (consumed_code (log b) q)
                by (eapply consumed_start; [rewrite <- (proj1 Hx); exact Hq | exact Hg])
          end;
      try match goal with
          | Hin : consumed_code (log ?x) ?q |- _ =>
              lazymatch x with b => fail | _ => idtac end;
              assert (consumed_code (log b) q)
                by (eapply consumed_later; [exact Hin | exact Hg]);
              clear Hin
          end
  end.

Ltac filed_refs :=
  let k := fresh "k" in
  let q := fresh "q" in
  let Hk := fresh "Hk" in
  intros k q Hk;
  first [ apply lookup_insert_Some in Hk as [[_ <-]|[_ Hk]]; [eassumption|]
        | apply lookup_delete_Some in Hk as [_ Hk]
        | idtac ];
  match goal with
  | H : forall k q, _ !! k = Some q -> consumed_code _ q |- _ =>
      pose proof (H _ _ Hk)
  end;
  repeat first [ eassumption | apply consumed_cons ].

Ltac filed_leaf :=
  unfold filed_inv, log_grows in *; simpl in *;
  repeat match goal with H : _ /\ _ |- _ => destruct H end;
  repeat match goal with |- _ /\ _ => split end;
  first
    [ congruence
    | solve [eauto using suffix_here, suffix_here_cons, suffix_cons_r]
    | solve [filed_refs] ].

Lemma filed_methods_safe c s :
  filed_inv s -> safe filed_inv log_grows (body (method c)) s s.
Proof.
  intros HI. destruct c; unfold_methods;
    repeat safe_step_with filed_carry;
    repeat match goal with |- _ /\ _ => split end;
    solve [filed_leaf].
Qed.

(** ** More single segments *)

(** X7. A call of [waitForStorageManifest] without [afterVersion] runs
    into the loop [do { version = await queue.shift() } while (false)]
    on the queue of the account; when the account has none it creates
    one with the configured timeout, empty and at a new place of the
    heap, and records it in the map. A step of the loop takes the
    version at the head of the queue and ends the wait, whatever the
    version is; the step can be taken whenever the queue has a version
    at its head; and a wait that times out throws. *)
Theorem manifest_wait_without_afterVersion_takes_the_first_version (d : Device) (s : State) :
  let parked := run_sync (waitForStorageManifest d None) s in
  exists queue,
    parked.1 = DoWhile (Shift QVersion queue) (fun _ _ => false) (fun _ => Ret tt) /\
    manifestQueueByUuid (this parked.2) !! uuid d = Some queue /\
    (forall q, manifestQueueByUuid (this s) !! uuid d = Some q -> queue = q /\ parked.2 = s) /\
    (manifestQueueByUuid (this s) !! uuid d = None ->
     versionQueues (heap s) !! addr queue = None /\
     versionQueues (heap parked.2) !! addr queue =
       Some (new_queue (timeout (config (this s)))) /\
     manifestQueueByUuid (this parked.2) = <[uuid d := queue]> (manifestQueueByUuid (this s))) /\
    (forall s1 p' s2,
       resumes parked.1 s1 p' s2 ->
       (p' = Throw QueueTimeout /\ s2 = s1) \/
       exists Q version token rest,
         versionQueues (heap s1) !! addr queue = Some Q /\
         entries Q = (version, token) :: rest /\
         versionQueues (heap s2) !! addr queue = Some (with_entries rest Q) /\
         p' = Ret tt) /\
    (forall s1 Q version token rest,
       versionQueues (heap s1) !! addr queue = Some Q ->
       entries Q = (version, token) :: rest ->
       resumes parked.1 s1 (Ret tt)
         (with_heap
            (ack token
               (set_queues QVersion
                  (<[addr queue := with_entries rest Q]> (versionQueues (heap s1)))
                  (heap s1))) s1)) /\
    (forall s1, resumes parked.1 s1 (Throw QueueTimeout) s1).
Proof.
  set (loop := fun queue : Queue QVersion =>
         DoWhile (R := unit) (Shift QVersion queue)
           (fun (_ : double) (_ : Server) => false) (fun _ => Ret tt)).
  assert (Hloop : forall queue s1 p' s2,
            resumes (loop queue) s1 p' s2 ->
            (p' = Throw QueueTimeout /\ s2 = s1) \/
            exists Q version token rest,
              versionQueues (heap s1) !! addr queue = Some Q /\
              entries Q = (version, token) :: rest /\
              versionQueues (heap s2) !! addr queue = Some (with_entries rest Q) /\
              p' = Ret tt).
  { intros queue s1 p' s2 (r & s1' & Ha & Hres). simpl in Ha. destruct r as [e|version].
    - destruct Ha as [-> ->]. destruct Hres as [-> ->]. by left.
    - destruct Ha as (Q & token & rest & HQ & He & ->). right.
      exists Q, version, token, rest. simpl in Hres. destruct Hres as [-> ->]. simpl.
      split; [done|]. split; [done|]. split; [apply lookup_insert_eq|done]. }
  assert (Hstep : forall queue s1 Q version token rest,
            versionQueues (heap s1) !! addr queue = Some Q ->
            entries Q = (version, token) :: rest ->
            resumes (loop queue) s1 (Ret tt)
              (with_heap
                 (ack token
                    (set_queues QVersion
                       (<[addr queue := with_entries rest Q]> (versionQueues (heap s1)))
                       (heap s1))) s1)).
  { intros queue s1 Q version token rest HQ He.
    exists (inr version). eexists. split.
    - exists Q, token, rest. split; [exact HQ|]. split; [exact He|reflexivity].
    - simpl. split; reflexivity. }
  assert (Htimeout : forall queue s1, resumes (loop queue) s1 (Throw QueueTimeout) s1).
  { intros queue s1. exists (inl QueueTimeout), s1. split; [by split|by split]. }
  unfold waitForStorageManifest, manifest_queue. simpl.
  destruct (manifestQueueByUuid (this s) !! uuid d) as [q|] eqn:Hq; simpl.
  - exists q. split; [done|]. split; [done|]. split; [by intros ? [= <-]|]. split; [done|].
    split; [exact (Hloop q)|]. split; [exact (Hstep q)|]. exact (Htimeout q).
  - pose (q := {| addr := fresh (dom (versionQueues (heap s))) |} : Queue QVersion).
    exists q. split; [done|]. split; [apply lookup_insert_eq|]. split; [done|]. split.
    { intros _. simpl. split; [|split; [apply lookup_insert_eq|done]].
      apply not_elem_of_dom, is_fresh. }
    split; [exact (Hloop q)|]. split; [exact (Hstep q)|]. exact (Htimeout q).
Qed.

(** X8. [updateDeviceKeys] first hands the keys to the base server: its
    first segment leaves its mark and waits for
    [super.updateDeviceKeys]. When that call has returned and no result
    queue is filed under [uuid.registrationId] of the device, the method
    returns and changes nothing. When one is filed, the method removes
    it from the map, puts the device at the end of that queue with the
    next token and waits for the acknowledgement; the key is gone, so
    the same continuation, run again, pushes nothing. *)
Theorem updateDeviceKeys_fulfils_the_result_queue_once
    (d : Device) (keys : DeviceKeys) (s : State) :
  exists k,
    run_sync (updateDeviceKeys d keys) s =
      (Wait (Ext (SuperUpdateDeviceKeys d keys)) k,
       with_log (UpdateDeviceKeysCalled d :: log s) s) /\
    forall st,
      (provisionResultQueueByKey (this st) !! result_key d = None ->
       run_sync (k tt) st = (Ret tt, st)) /\
      (forall queue,
         provisionResultQueueByKey (this st) !! result_key d = Some queue ->
         let pushed := run_sync (k tt) st in
         pushed.1 = Wait (AwaitAck QDevice queue (nextToken (heap st))) Ret /\
         provisionResultQueueByKey (this pushed.2) =
           delete (result_key d) (provisionResultQueueByKey (this st)) /\
         deviceQueues (heap pushed.2) =
           alter (enqueue d (Some (nextToken (heap st)))) (addr queue)
             (deviceQueues (heap st)) /\
         nextToken (heap pushed.2) = S (nextToken (heap st)) /\
         log pushed.2 = log st /\
         run_sync (k tt) pushed.2 = (Ret tt, pushed.2)).
Proof.
  unfold updateDeviceKeys. simpl. eexists. split; [reflexivity|].
  intros st. split.
  - intros Hq. simpl. by rewrite Hq.
  - intros queue Hq. simpl. rewrite Hq. simpl.
    repeat match goal with |- _ /\ _ => split end; try reflexivity.
    by rewrite lookup_delete_eq.
Qed.

(** X9. [provisionDevice] that finds the result queue of its code
    removes the code, leaves its mark and waits for
    [super.provisionDevice]. When that call has returned the device, the
    queue is filed under [uuid.registrationId] of the device, where
    [updateDeviceKeys] looks for it; the codes, the heap and the log are
    as they were; and the method returns the device, after it has told
    the primary device registered for the uuid of the device, if there
    is one. *)
Theorem provisionDevice_files_the_queue_under_the_device_key
    (number password : string) (code : ProvisioningCode) (registrationId : RegistrationId)
    (queue : Queue QDevice) (s : State) :
  provisionResultQueueByCode (this s) !! code = Some queue ->
  exists k,
    run_sync (provisionDevice number password code registrationId) s =
      (Wait (Ext (SuperProvisionDevice number password code registrationId)) k,
       with_log (CodeConsumed code :: log s)
         (with_this (with_provisionResultQueueByCode (delete code) (this s)) s)) /\
    forall d st,
      let filed := run_sync (k d) st in
      result_key d = uuid d ++ "." ++ numberToString (Api.registrationId d) /\
      provisionResultQueueByKey (this filed.2) =
        <[result_key d := queue]> (provisionResultQueueByKey (this st)) /\
      provisionResultQueueByCode (this filed.2) = provisionResultQueueByCode (this st) /\
      heap filed.2 = heap st /\
      log filed.2 = log st /\
      (primaryDevices (this st) !! uuid d = None -> filed.1 = Ret d) /\
      (forall primary,
         primaryDevices (this st) !! uuid d = Some primary ->
         exists k',
           filed.1 = Wait (Ext (PrimaryAddSecondaryDevice primary d)) k' /\
           forall st', run_sync (k' tt) st' = (Ret d, st')).
Proof.
  intros Hq. unfold provisionDevice. simpl. rewrite Hq. simpl.
  eexists. split; [reflexivity|].
  intros d st. simpl.
  destruct (primaryDevices (this st) !! uuid d) as [primary|] eqn:Hp; simpl;
    repeat match goal with |- _ /\ _ => split end; try done.
  intros primary' [= <-]. eexists. split; [reflexivity|]. done.
Qed.

(** X10. [address] on a started server asks the server of Node for its
    address and changes nothing; it returns the answer when the answer
    is an object, and throws "Invalid .address() result" when it is
    [null] or a string. *)
Theorem address_returns_object_results_only (server : HttpsServer) (s : State) :
  https (this s) = Some server ->
  exists k,
    run_sync address s = (Wait (Ext (ServerAddress server)) k, s) /\
    forall result st,
      run_sync (k result) st =
        (match result with
         | AddressObject info => Ret info
         | AddressNull | AddressString _ => Throw (JsError "Invalid .address() result")
         end, st).
Proof.
  intros Hs. unfold address. simpl. rewrite Hs. simpl.
  eexists. split; [reflexivity|]. intros [| |]; reflexivity.
Qed.

(** X11. The first segment of [getProvisioningResponse] creates the two
    queues of the attempt, each empty, with the configured timeout and
    at a place of the heap that held no queue; it puts the pending
    provision that holds them at the end of the provision queue, and
    waits for that entry to be taken. No field of the server changes:
    no code is filed yet. *)
Theorem getProvisioningResponse_creates_the_queues_of_the_attempt (uuid : UUID) (s : State) :
  let parked := run_sync (getProvisioningResponse uuid) s in
  exists responseQueue resultQueue k,
    parked.1 = Wait (AwaitAck QPending (provisionQueue (this s)) (nextToken (heap s))) k /\
    responseQueues (heap s) !! addr responseQueue = None /\
    deviceQueues (heap s) !! addr resultQueue = None /\
    responseQueues (heap parked.2) !! addr responseQueue =
      Some (new_queue (timeout (config (this s)))) /\
    deviceQueues (heap parked.2) !! addr resultQueue =
      Some (new_queue (timeout (config (this s)))) /\
    this parked.2 = this s /\
    log parked.2 = log s /\
    nextToken (heap parked.2) = S (nextToken (heap s)) /\
    forall Q,
      pendingQueues (heap s) !! addr (provisionQueue (this s)) = Some Q ->
      exists Q',
        pendingQueues (heap parked.2) !! addr (provisionQueue (this s)) = Some Q' /\
        queue_timeout Q' = queue_timeout Q /\
        entries Q' =
          (entries Q ++ [({| responseQueue := responseQueue; resultQueue := resultQueue |},
                          Some (nextToken (heap s)))])%list.
Proof.
  unfold getProvisioningResponse, createQueue. simpl.
  eexists {| addr := _ |}, {| addr := _ |}, _. split; [reflexivity|]. simpl.
  split; [apply not_elem_of_dom, is_fresh|].
  split; [apply not_elem_of_dom, is_fresh|].
  split; [apply lookup_insert_eq|].
  split; [apply lookup_insert_eq|].
  split; [done|]. split; [done|]. split; [done|].
  intros Q HQ. eexists. rewrite lookup_alter_eq, HQ. simpl. done.
Qed.

Lemma strict_equal_spec (value : QueryValue) (s : string) :
  strict_equal value s = true <-> value = QueryString s.
Proof.
  destruct value as [|x|l]; simpl; try (split; intros; discriminate).
  rewrite String.eqb_eq. split; [by intros ->|by intros [= ->]].
Qed.

(** X12. [getProvisioningResponse] checks the provision URL before it
    asks for a code. Once its pending provision is taken it waits for
    the response on the response queue of the attempt and parses the URL
    of the response; a query whose [uuid] is not the uuid of the call
    throws "UUID mismatch", whatever its [pub_key]; with the right uuid,
    a [pub_key] that is missing, empty or an array throws
    "Expected `pub_key` in provision URL"; and only a non-empty string
    goes on, to the deserialization of the key. The segments up to there
    change nothing. *)
Theorem getProvisioningResponse_checks_the_url_first (uuid : UUID) (s : State) :
  exists k1,
    (run_sync (getProvisioningResponse uuid) s).1 =
      Wait (AwaitAck QPending (provisionQueue (this s)) (nextToken (heap s))) k1 /\
    forall st1, exists k2,
      run_sync (k1 tt) st1 =
        (Wait (Shift QResponse {| addr := fresh (dom (responseQueues (heap s))) |}) k2, st1) /\
      forall response st2, exists k3,
        run_sync (k2 response) st2 = (Wait (Ext (ParseURL (provisionURL response))) k3, st2) /\
        forall query st3,
          (query_uuid query <> QueryString uuid ->
           run_sync (k3 query) st3 = (Throw (AssertionError "UUID mismatch"), st3)) /\
          (query_uuid query = QueryString uuid ->
           (query_pub_key query = QueryMissing \/ query_pub_key query = QueryString "" \/
            (exists l, query_pub_key query = QueryArray l) ->
            run_sync (k3 query) st3 =
              (Throw (JsError "Expected `pub_key` in provision URL"), st3)) /\
           (forall pub_key,
              query_pub_key query = QueryString pub_key -> pub_key <> "" ->
              exists k4,
                run_sync (k3 query) st3 = (Wait (Ext (PublicKeyDeserialize pub_key)) k4, st3))).
Proof.
  unfold getProvisioningResponse, createQueue. simpl.
  eexists. split; [reflexivity|].
  intros st1. eexists. split; [reflexivity|].
  intros response st2. eexists. split; [reflexivity|].
  intros query st3. simpl.
  destruct (strict_equal (query_uuid query) uuid) eqn:Hu; simpl.
  - apply strict_equal_spec in Hu. split; [done|]. intros _. split.
    + intros [->|[->|[l ->]]]; reflexivity.
    + intros pub_key -> Hne. destruct pub_key; [done|]. eexists. reflexivity.
  - split.
    + done.
    + intros Heq. apply strict_equal_spec in Heq. congruence.
Qed.

(** X13. The options the constructor keeps for [https.createServer]:
    the spread puts every option the caller gave over the defaults, with
    the value the caller gave, [undefined] included; so [key] and [cert]
    are always keys of the options, holding the caller's value when the
    caller gave the key and [KEY] and [CERT] of the [certs] directory
    otherwise; an option the caller did not give is the default when it
    is [key] or [cert] and missing otherwise; and without [config.https]
    the options are the two defaults. *)
Theorem https_options_keep_what_the_caller_gave (certs : Certs) (given : Config) :
  let options := strict_https (strict_config certs given) in
  let defaults : ServerOptions :=
    {[ "key" := Some (KEY certs); "cert" := Some (CERT certs) ]} in
  (forall o k v, cfg_https given = Holds (Some o) -> o !! k = Some v -> options !! k = Some v) /\
  (forall o k, cfg_https given = Holds (Some o) -> o !! k = None ->
     options !! k = defaults !! k) /\
  (cfg_https given = Missing \/ cfg_https given = Holds None -> options = defaults) /\
  defaults !! "key" = Some (Some (KEY certs)) /\
  defaults !! "cert" = Some (Some (CERT certs)) /\
  (forall k, k <> "key" -> k <> "cert" -> defaults !! k = None) /\
  is_Some (options !! "key") /\
  is_Some (options !! "cert").
Proof.
  simpl. unfold https_options.
  assert (Hkey : ({[ "key" := Some (KEY certs); "cert" := Some (CERT certs) ]}
                    : gmap string (option (list byte)))
                   !! "key" = Some (Some (KEY certs))) by apply lookup_insert_eq.
  assert (Hcert : ({[ "key" := Some (KEY certs); "cert" := Some (CERT certs) ]}
                     : gmap string (option (list byte)))
                    !! "cert" = Some (Some (CERT certs))).
  { rewrite lookup_insert_ne by done. apply lookup_singleton_eq. }
  repeat match goal with |- _ /\ _ => split end.
  - intros o k v -> Hk. by apply lookup_union_Some_l.
  - intros o k -> Hk. by apply lookup_union_r.
  - intros [->| ->]; reflexivity.
  - exact Hkey.
  - exact Hcert.
  - intros k Hk Hc. rewrite lookup_insert_ne by done. by apply lookup_singleton_ne.
  - destruct (cfg_https given) as [|[o|]]; try by eexists.
    rewrite lookup_union. rewrite Hkey. destruct (o !! "key"); by eexists.
  - destruct (cfg_https given) as [|[o|]]; try by eexists.
    rewrite lookup_union. rewrite Hcert. destruct (o !! "cert"); by eexists.
Qed.

(** ** Runs of a constructed server *)

Section Runs.

Variable certs : Certs.
Variable given : Config.
Variable trustPrivate : PrivateKey.
Variable zkSecretParams serverCertificate : Buffer.

Let init : State := constructor certs given trustPrivate zkSecretParams serverCertificate.

Lemma registry_inv_init : registry_inv init.
Proof.
  split; simpl.
  - done.
  - intros k primary Hk. by rewrite lookup_empty in Hk.
Qed.

Lemma run_goes_later s pool s' pool' :
  rtc step (init, []) (s, pool) -> rtc step (s, pool) (s', pool') -> later s s'.
Proof.
  exact (run_later any_state later later_refl later_trans later_methods_safe
           init s pool s' pool' I).
Qed.

(** X1. No method assigns the fields the constructor set: in every
    state the server reaches, the configuration, the private key of the
    trust root, the secret params, the server certificate and the
    provision queue are those of the constructor; so every
    [waitForProvision] waits on the queue the constructor created. *)
Theorem constructor_fields_are_never_reassigned (s : State) :
  reachable init s ->
  config (this s) = strict_config certs given /\
  trustRoot (this s) = trustPrivate /\
  zkSecret (this s) = zkSecretParams /\
  certificate (this s) = serverCertificate /\
  provisionQueue (this s) = provisionQueue (this init) /\
  run_sync waitForProvision s = (shift (provisionQueue (this init)), s).
Proof.
  intros [pool Hr].
  destruct (run_goes_later init [] s pool (rtc_refl _ _) Hr)
    as ((Hc & Ht & Hz & Hs & Hq) & _).
  repeat match goal with |- _ /\ _ => split end; try done.
  unfold waitForProvision. simpl. by rewrite Hq.
Qed.

(** X2. Nothing clears [https], not even [close]: once the server is
    started, in every later state of the run [https] and the empty
    attachment are set, [listen] throws "Already listening" without any
    effect, and [close] goes on to close the server it finds instead of
    throwing "Not listening". *)
Theorem started_server_is_never_restarted
    (s s' : State) (pool pool' : list Task) (port : Z) (host : option string) :
  rtc step (init, []) (s, pool) ->
  rtc step (s, pool) (s', pool') ->
  is_Some (https (this s)) ->
  (exists server,
     https (this s') = Some server /\
     run_sync close s' = (ext (ServerClose server), s')) /\
  is_Some (emptyAttachment (this s')) /\
  run_sync (listen port host) s' = (Throw (JsError "Already listening"), s').
Proof.
  intros Hr Hr' Hs.
  destruct (run_goes_later s pool s' pool' Hr Hr') as (_ & Hh & _).
  destruct (Hh Hs) as [server Hserver].
  assert (Hreach : reachable init s').
  { exists pool'. by etrans. }
  destruct (reachable_safe attachment_inv attachment_grows attachment_grows_refl
              attachment_grows_trans attachment_methods_safe init s'
              (attachment_inv_init certs given trustPrivate zkSecretParams serverCertificate)
              Hreach) as (_ & _ & He & _).
  split; [|split].
  - exists server. split; [done|]. unfold close. simpl. by rewrite Hserver.
  - apply He. by exists server.
  - unfold listen. simpl. by rewrite Hserver.
Qed.

(** X3. Nothing is unregistered: a number that [generateNumber] has
    recorded stays in [knownNumbers], a key of [primaryDevices] stays a
    key, a blob of the store stays where it is, and the log keeps its
    marks, in every later state of the run. *)
Theorem numbers_and_primary_devices_are_never_removed
    (s s' : State) (pool pool' : list Task) :
  rtc step (init, []) (s, pool) ->
  rtc step (s, pool) (s', pool') ->
  (forall number, number ∈ knownNumbers (this s) -> number ∈ knownNumbers (this s')) /\
  (forall k, is_Some (primaryDevices (this s) !! k) -> is_Some (primaryDevices (this s') !! k)) /\
  (forall cdnKey data, cdn s !! cdnKey = Some data -> cdn s' !! cdnKey = Some data) /\
  (forall e, e ∈ log s -> e ∈ log s').
Proof.
  intros Hr Hr'.
  destruct (run_goes_later s pool s' pool' Hr Hr') as (_ & _ & _ & Hk & Hp & _ & Hc & [l Hl]).
  split; [|split; [|split]].
  - intros number Hn. by apply Hk.
  - intros k Hin. apply elem_of_dom, Hp, elem_of_dom, Hin.
  - intros cdnKey data Hd. eapply lookup_weaken; eauto.
  - intros e He. rewrite Hl. apply elem_of_app. by right.
Qed.

(** X4. The queue of manifest versions of an account is never replaced:
    once the map has a queue for the uuid, in every later state of the
    run it has that queue and the queue is on the heap; a
    [waitForStorageManifest] for the account changes nothing and runs
    into the loop that shifts this queue; and [onStorageManifestUpdate]
    for the account puts the number of its version, [version.toNumber()],
    behind the versions the queue holds, and changes no field of the
    server. *)
Theorem manifest_update_reaches_waiter
    (s s' : State) (pool pool' : list Task) (d : Device) (queue : Queue QVersion)
    (afterVersion : option double) (version : Long) :
  rtc step (init, []) (s, pool) ->
  rtc step (s, pool) (s', pool') ->
  manifestQueueByUuid (this s) !! uuid d = Some queue ->
  manifestQueueByUuid (this s') !! uuid d = Some queue /\
  run_sync (waitForStorageManifest d afterVersion) s' =
    (DoWhile (Shift QVersion queue)
       (fun number _ =>
          match afterVersion with
          | Some after => (number <=? after)%float
          | None => false
          end)
       (fun _ => Ret tt), s') /\
  exists Q,
    versionQueues (heap s') !! addr queue = Some Q /\
    let updated := run_sync (onStorageManifestUpdate d version) s' in
    updated.1 = Ret tt /\
    this updated.2 = this s' /\
    exists Q',
      versionQueues (heap updated.2) !! addr queue = Some Q' /\
      entries Q' = (entries Q ++ [(toNumber version, None)])%list.
Proof.
  intros Hr Hr' Hq.
  destruct (run_goes_later s pool s' pool' Hr Hr') as (_ & _ & _ & _ & _ & Hm & _).
  assert (Hq' : manifestQueueByUuid (this s') !! uuid d = Some queue).
  { eapply lookup_weaken; eauto. }
  assert (Hreach : reachable init s').
  { exists pool'. by etrans. }
  pose proof (reachable_safe (timeout_inv (strict_config certs given)) heap_grows
                heap_grows_refl heap_grows_trans
                (timeout_methods_safe (strict_config certs given)) init s'
                (timeout_inv_init certs given trustPrivate zkSecretParams serverCertificate)
                Hreach) as HI.
  timeout_open HI. destruct (Hman _ _ Hq') as [Q HQ].
  split; [done|]. split.
  - unfold waitForStorageManifest, manifest_queue. simpl. by rewrite Hq'.
  - exists Q. split; [done|].
    rewrite (onStorageManifestUpdate_pushes d version s' queue Hq'). simpl.
    split; [done|]. split; [done|].
    exists (enqueue (toNumber version) None Q). split; [|done].
    rewrite lookup_alter_eq, HQ. done.
Qed.

(** X5. No primary device enters [primaryDevices] before [listen] has
    stored the empty attachment: in every state the server reaches with
    [emptyAttachment] unset, the server is not started, the map of
    primary devices is empty, no [createPrimaryDevice] has returned, and
    [handleMessage] delivers nothing: it returns, or fails its assertion
    on the source. A [createPrimaryDevice] is not without effect
    there: it draws its number and records it, generates the two uuids
    and the registration id, registers the device with the base server,
    and only then tests [emptyAttachment] and throws, without another
    change, when it is unset. *)
Theorem no_primary_device_before_listen
    (s : State) (source : option Device) (envelopeType : EnvelopeType) (target : Device)
    (encrypted : Buffer) (profileName : string) (contacts : list PrimaryDevice) :
  reachable init s ->
  emptyAttachment (this s) = None ->
  https (this s) = None /\
  primaryDevices (this s) = ∅ /\
  (forall primary, PrimaryDeviceCreated primary ∉ log s) /\
  (let after := run_sync (handleMessage source envelopeType target encrypted) s in
   after.1 = Ret tt \/ after.1 = Throw (AssertionError no_source_message)) /\
  exists k0,
    run_sync (createPrimaryDevice profileName contacts) s =
      (DoWhile (Ext GenerateRandomE164)
         (fun number x => bool_decide (number ∈ knownNumbers x)) k0, s) /\
    forall number st0, exists k1,
      run_sync (k0 number) st0 =
        (Wait Tick k1,
         with_log (NumberGenerated number :: log st0)
           (with_this (with_knownNumbers (fun known => {[number]} ∪ known) (this st0)) st0)) /\
      forall st1, exists k2,
        run_sync (k1 tt) st1 = (Wait (Ext GenerateUUID) k2, st1) /\
        forall uuid st2, exists k3,
          run_sync (k2 uuid) st2 = (Wait (Ext GenerateUUID) k3, st2) /\
          forall pni st3, exists k4,
            run_sync (k3 pni) st3 = (Wait (Ext GenerateRegistrationId) k4, st3) /\
            forall registrationId st4, exists k5,
              run_sync (k4 registrationId) st4 =
                (Wait (Ext (RegisterDevice uuid pni number registrationId)) k5, st4) /\
              forall d st5,
                emptyAttachment (this st5) = None ->
                run_sync (k5 d) st5 =
                  (Throw (JsError "Mock#init must be called before starting the server"),
                   st5).
Proof.
  intros Hr He.
  destruct (reachable_safe registry_inv attachment_grows attachment_grows_refl
              attachment_grows_trans registry_methods_safe init s registry_inv_init Hr)
    as [Hnone _].
  destruct (reachable_safe attachment_inv attachment_grows attachment_grows_refl
              attachment_grows_trans attachment_methods_safe init s
              (attachment_inv_init certs given trustPrivate zkSecretParams serverCertificate)
              Hr) as (Hhead & _ & Hh & Hcreated).
  split; [|split; [|split; [|split]]].
  - destruct (https (this s)) as [server|] eqn:Hs; [|done].
    destruct Hh as [p Hp]; [by eexists|]. congruence.
  - auto.
  - intros primary Hin. apply list_elem_of_split in Hin as (l1 & l2 & Heq).
    destruct (Hcreated l1 l2 primary Heq) as (p & _ & Hp).
    assert (Hlog : EmptyAttachmentStored p ∈ log s).
    { rewrite Heq. apply elem_of_app. right. by right. }
    apply stored_in in Hlog. rewrite He in Hhead.
    destruct (stored_pointers (log s)); [by apply elem_of_nil in Hlog|discriminate].
  - unfold handleMessage, no_source_message. simpl.
    destruct (negb _); [by right|]. destruct (negb _); [by left|]. simpl.
    rewrite (Hnone He), lookup_empty. by left.
  - unfold createPrimaryDevice, generateNumber. simpl.
    eexists. split; [reflexivity|].
    intros number st0. eexists. split; [reflexivity|].
    intros st1. eexists. split; [reflexivity|].
    intros uuid st2. eexists. split; [reflexivity|].
    intros pni st3. eexists. split; [reflexivity|].
    intros registrationId st4. eexists. split; [reflexivity|].
    intros d st5 Hunset. simpl. by rewrite Hunset.
Qed.

(** X6. An envelope goes only to a primary device that
    [createPrimaryDevice] returned: in every state the server reaches,
    every primary device of the map has its mark in the log, and when
    [handleMessage] calls out, it calls the envelope handler of the
    primary device registered for the uuid of the target, which has its
    mark in the log. *)
Theorem envelopes_go_to_created_primary_devices
    (s : State) (source : option Device) (envelopeType : EnvelopeType) (target : Device)
    (encrypted : Buffer) :
  reachable init s ->
  (forall k primary,
     primaryDevices (this s) !! k = Some primary -> PrimaryDeviceCreated primary ∈ log s) /\
  (forall A (c : WaitOp A) k,
     (run_sync (handleMessage source envelopeType target encrypted) s).1 = Wait c k ->
     exists primary,
       primaryDevices (this s) !! uuid target = Some primary /\
       PrimaryDeviceCreated primary ∈ log s /\
       (run_sync (handleMessage source envelopeType target encrypted) s).1 =
         ext (PrimaryHandleEnvelope primary source envelopeType encrypted)).
Proof.
  intros Hr.
  destruct (reachable_safe registry_inv attachment_grows attachment_grows_refl
              attachment_grows_trans registry_methods_safe init s registry_inv_init Hr)
    as [_ Hcreated].
  split; [exact Hcreated|].
  intros A c k. unfold handleMessage. simpl.
  destruct (negb _); [discriminate|]. destruct (negb _); [discriminate|]. simpl.
  destruct (primaryDevices (this s) !! uuid target) as [registered|] eqn:Hp; simpl;
    [|discriminate].
  intros _. exists registered. eauto.
Qed.

Lemma filed_inv_init : filed_inv init.
Proof.
  split; simpl.
  - done.
  - intros k queue Hk. by rewrite lookup_empty in Hk.
Qed.

Lemma pending_codes_issued code queue l :
  pending_codes l !! code = Some queue ->
  exists l1 l2, l = (l1 ++ CodeIssued code queue :: l2)%list /\ untouched code l1.
Proof.
  unfold untouched. induction l as [|e l IH]; simpl; [by rewrite lookup_empty|].
  assert (Hnext : forall e', concerns code e' = false ->
            pending_codes l !! code = Some queue ->
            exists l1 l2, e' :: l = (l1 ++ CodeIssued code queue :: l2)%list /\
                          forallb (fun e => negb (concerns code e)) l1 = true).
  { intros e' He' Hl. destruct (IH Hl) as (l1 & l2 & -> & Hu).
    exists (e' :: l1), l2. split; [done|]. simpl. by rewrite He', Hu. }
  destruct e; simpl; try (by apply Hnext).
  - destruct (decide (code0 = code)) as [->|Hne].
    + rewrite lookup_insert_eq. intros [= ->]. by exists [], l.
    + rewrite lookup_insert_ne by done. apply Hnext. simpl. by apply String.eqb_neq.
  - destruct (decide (code0 = code)) as [->|Hne].
    + by rewrite lookup_delete_eq.
    + rewrite lookup_delete_ne by done. apply Hnext. simpl. by apply String.eqb_neq.
Qed.

(** X19. A result queue reaches the map of device keys only through a
    code: in every state the server reaches, a queue filed under any key
    of [provisionResultQueueByKey] was issued with a code by
    [getProvisioningResponse], and a [provisionDevice] consumed that
    code later, when no mark in between had issued the code again or
    consumed it. The log has the latest mark first. *)
Theorem result_queues_are_filed_through_a_code
    (s : State) (k : string) (queue : Queue QDevice) :
  reachable init s ->
  provisionResultQueueByKey (this s) !! k = Some queue ->
  exists code l1 l2 l3,
    log s = (l1 ++ CodeConsumed code :: l2 ++ CodeIssued code queue :: l3)%list /\
    untouched code l2.
Proof.
  intros Hr Hk.
  destruct (reachable_safe filed_inv log_grows log_grows_refl log_grows_trans
              filed_methods_safe init s filed_inv_init Hr) as [_ Hfiled].
  destruct (Hfiled k queue Hk) as (code & l1 & l2 & Hl & Hq).
  destruct (pending_codes_issued code queue l2 Hq) as (l3 & l4 & -> & Hu).
  by exists code, l1, l3, l4.
Qed.

End Runs.

End WithAttachments.

Arguments queue_timeout {T} _.
Arguments entries {T} _.
Arguments Ret {AttachmentPointer R} r.
Arguments Throw {AttachmentPointer R} e.
Arguments Sync {AttachmentPointer R A} c k.
Arguments Wait {AttachmentPointer R A} c k.
Arguments DoWhile {AttachmentPointer R A} c cond k.

End Api.

(** ** The schemas *)

Module SchemaProperties.

Import Schemas.

Lemma merge_ok {A B} (f : SafeParse (A -> B)) (x : SafeParse A) (y : B) :
  f <*> x = ParseOk y -> exists g a, f = ParseOk g /\ x = ParseOk a /\ y = g a.
Proof.
  destruct f as [g|e1], x as [a|e2]; simpl; intros H; try discriminate.
  injection H as <-. eauto.
Qed.

Lemma parse_items_strings (f : string -> Buffer) (hashes : list string) :
  parse_items (transform z_string f) (JString <$> hashes) = ParseOk (f <$> hashes).
Proof.
  induction hashes as [|h hashes IH]; [done|].
  rewrite !fmap_cons. cbn [parse_items]. rewrite IH. reflexivity.
Qed.

Lemma parse_items_strings_inv (f : string -> Buffer) (items : list JsValue) (l : list Buffer) :
  parse_items (transform z_string f) items = ParseOk l ->
  exists hashes, items = JString <$> hashes /\ l = f <$> hashes.
Proof.
  revert l. induction items as [|v items IH]; intros l H; cbn [parse_items] in H.
  - injection H as <-. by exists [].
  - apply merge_ok in H as (g & tl & Hg & Htl & ->).
    apply merge_ok in Hg as (g' & hd & Hg' & Hhd & ->).
    injection Hg' as <-.
    destruct (IH tl Htl) as (hashes & -> & ->).
    unfold transform, z_string in Hhd. destruct v; try discriminate.
    injection Hhd as <-. by exists (s :: hashes).
Qed.

Lemma parse_items_unknown (items : list JsValue) :
  parse_items z_unknown items = ParseOk items.
Proof. induction items as [|v items IH]; simpl; [done|]. by rewrite IH. Qed.

(** The result of the array of hashes, by its length. *)
Lemma parse_hashes (f : string -> Buffer) (hashes : list string) :
  parse_array (max 20 (min 1 (array (transform z_string f)))) (JArray (JString <$> hashes)) =
    if (length hashes <? 1)%nat then ParseError [too_small]
    else if (20 <? length hashes)%nat then ParseError [too_big]
    else ParseOk (f <$> hashes).
Proof.
  unfold parse_array. simpl. rewrite length_fmap, parse_items_strings.
  destruct (length hashes <? 1)%nat eqn:H1; destruct (20 <? length hashes)%nat eqn:H2;
    simpl; try done.
  apply Nat.ltb_lt in H1, H2. lia.
Qed.

(** C4. A request body parses as a username reservation exactly when it
    is an object whose [usernameHashes] is an array of 1 to 20 strings;
    the parsed value holds the decoded hashes. An array of no string or
    of 21 strings is refused, and the request is answered with 422. *)
Theorem username_reservation_takes_1_to_20_hashes
    (fromURLSafeBase64 : string -> Buffer) (body : JsValue) :
  (success (UsernameReservationSchema fromURLSafeBase64 body) = true <->
   exists props hashes,
     body = JObject props /\
     get_prop props "usernameHashes" = JArray (JString <$> hashes) /\
     (1 <= length hashes <= 20)%nat) /\
  (forall props hashes,
     body = JObject props ->
     get_prop props "usernameHashes" = JArray (JString <$> hashes) ->
     ((1 <= length hashes <= 20)%nat ->
      UsernameReservationSchema fromURLSafeBase64 body =
        ParseOk {| usernameHashes := fromURLSafeBase64 <$> hashes |}) /\
     (length hashes = 0%nat \/ length hashes = 21%nat ->
      success (UsernameReservationSchema fromURLSafeBase64 body) = false /\
      validation_status (UsernameReservationSchema fromURLSafeBase64 body) = Some 422)).
Proof.
  split.
  - split.
    + destruct body as [| | | | | |items|props]; simpl; try discriminate.
      destruct (get_prop props "usernameHashes") as [| | | | | |items|] eqn:Hp;
        simpl; try discriminate.
      intros Hs. exists props.
      destruct (length items <? 1)%nat eqn:H1; simpl in Hs.
      { destruct (20 <? length items)%nat; simpl in Hs;
          destruct (parse_items _ items); discriminate. }
      destruct (20 <? length items)%nat eqn:H2; simpl in Hs.
      { destruct (parse_items _ items); discriminate. }
      destruct (parse_items _ items) as [l|e] eqn:Hparse; [|discriminate].
      apply parse_items_strings_inv in Hparse as (hashes & -> & ->).
      exists hashes. rewrite length_fmap in H1, H2.
      apply Nat.ltb_ge in H1, H2. split; [done|]. split; [done|]. lia.
    + intros (props & hashes & -> & Hp & Hlen). simpl. rewrite Hp, parse_hashes.
      destruct (length hashes <? 1)%nat eqn:H1; [apply Nat.ltb_lt in H1; lia|].
      destruct (20 <? length hashes)%nat eqn:H2; [apply Nat.ltb_lt in H2; lia|].
      done.
  - intros props hashes -> Hp. simpl. rewrite Hp, parse_hashes. split.
    + intros Hlen.
      destruct (length hashes <? 1)%nat eqn:H1; [apply Nat.ltb_lt in H1; lia|].
      destruct (20 <? length hashes)%nat eqn:H2; [apply Nat.ltb_lt in H2; lia|].
      done.
    + intros [Hlen|Hlen]; rewrite Hlen; done.
Qed.

(** C5. A group state that parses has version 0 and a members array that
    is not empty, and the parsed state has that version and those
    members; a body with any other version, or with an empty members
    array, is refused. *)
Theorem group_state_starts_at_version_0 (body : JsValue) :
  (forall state,
     GroupStateSchema body = ParseOk state ->
     exists props items,
       body = JObject props /\
       get_prop props "version" = JNumber 0 /\
       get_prop props "members" = JArray items /\
       items <> [] /\
       version state = 0 /\
       members state = items) /\
  (forall props,
     body = JObject props ->
     get_prop props "version" <> JNumber 0 \/ get_prop props "members" = JArray [] ->
     success (GroupStateSchema body) = false).
Proof.
  assert (Hok : forall state, GroupStateSchema body = ParseOk state ->
            exists props items,
              body = JObject props /\ get_prop props "version" = JNumber 0 /\
              get_prop props "members" = JArray items /\ items <> [] /\
              version state = 0 /\ members state = items).
  { intros state H. destruct body as [| | | | | | |props]; try discriminate.
    unfold GroupStateSchema in H. cbv beta delta [z_object] iota in H.
    apply merge_ok in H as (g4 & ms & H & Hms & ->).
    apply merge_ok in H as (g3 & ac & H & Hac & ->).
    apply merge_ok in H as (g2 & v & H & Hv & ->).
    apply merge_ok in H as (g1 & pk & H & Hpk & ->).
    injection H as <-. simpl.
    exists props.
    unfold z_literal in Hv.
    destruct (get_prop props "version") as [| | |n| | | |]; try discriminate.
    destruct (n =? 0)%Z eqn:Hn; [|discriminate].
    apply Z.eqb_eq in Hn. subst n. injection Hv as <-.
    unfold parse_array in Hms.
    destruct (get_prop props "members") as [| | | | | |items|]; try discriminate.
    simpl in Hms. rewrite parse_items_unknown in Hms.
    destruct items as [|m items]; [discriminate|]. simpl in Hms. injection Hms as <-.
    exists (m :: items). done. }
  split; [exact Hok|].
  intros props -> Hbad.
  destruct (GroupStateSchema (JObject props)) as [state|e] eqn:Hp; [|done].
  destruct (Hok state eq_refl) as (props' & items & [= <-] & Hv & Hm & Hne & _).
  destruct Hbad as [Hbad|Hbad]; [done|]. rewrite Hm in Hbad. by injection Hbad as ->.
Qed.

(** ** The schemas of identifiers, keys and messages *)

Lemma merge_refused_l {A B} (f : SafeParse (A -> B)) (x : SafeParse A) :
  success f = false -> success (f <*> x) = false.
Proof. destruct f, x; simpl; congruence. Qed.

Lemma merge_refused_r {A B} (f : SafeParse (A -> B)) (x : SafeParse A) :
  success x = false -> success (f <*> x) = false.
Proof. destruct f, x; simpl; congruence. Qed.

Lemma starts_with_PNI (s : string) :
  String.prefix "PNI:" s = true <-> exists rest, s = "PNI:" ++ rest.
Proof.
  split.
  - intros H.
    destruct s as [|c1 [|c2 [|c3 [|c4 rest]]]]; simpl in H; try discriminate;
      repeat match type of H with
             | (if ?b then _ else _) = true => destruct b; [|discriminate]
             end; try discriminate.
    subst. by exists rest.
  - intros [rest ->]. apply String.prefix_correct. simpl. by destruct rest.
Qed.

(** X14. [PniSchema] is the one schema of identifiers that looks at the
    string: it accepts exactly the strings that start with "PNI:" and
    returns them as they are, refuses every other string with the issue
    of a failed refinement, and a value that is no string as a value of
    the wrong type. [AciSchema] and [ServiceIdSchema] accept every
    string, also one that starts with "PNI:". *)
Theorem pni_schema_checks_the_prefix (v : JsValue) :
  (forall s, PniSchema v = ParseOk s <-> exists rest, s = "PNI:" ++ rest /\ v = JString s) /\
  (forall s, v = JString s -> (forall rest, s <> "PNI:" ++ rest) ->
     PniSchema v = ParseError [custom]) /\
  ((forall s, v <> JString s) -> PniSchema v = ParseError [invalid_type]) /\
  (forall s, AciSchema (JString s) = ParseOk s /\ ServiceIdSchema (JString s) = ParseOk s).
Proof.
  unfold PniSchema, AciSchema, ServiceIdSchema, transform, refine, z_string, cast.
  repeat match goal with |- _ /\ _ => split end.
  - intros s. split.
    + destruct v as [| | | |x| | |]; try discriminate.
      destruct (String.prefix "PNI:" x) eqn:Hp; [|discriminate].
      intros [= <-]. apply starts_with_PNI in Hp as [rest ->]. eauto.
    + intros (rest & -> & ->).
      by rewrite (proj2 (starts_with_PNI _) (ex_intro _ rest eq_refl)).
  - intros s -> Hno. destruct (String.prefix "PNI:" s) eqn:Hp; [|done].
    apply starts_with_PNI in Hp as [rest ->]. by destruct (Hno rest).
  - intros Hno. destruct v; try done. by destruct (Hno s).
  - done.
Qed.

(** X15. [MessageSchema] accepts exactly the objects whose [type],
    [destinationDeviceId] and [destinationRegistrationId] are numbers
    and whose [content] is a string; the parsed message holds these four
    values, and nothing else of the object is looked at. *)
Theorem message_schema_reads_four_properties (body : JsValue) (m : Message) :
  MessageSchema body = ParseOk m <->
  exists props,
    body = JObject props /\
    get_prop props "type" = JNumber (type m) /\
    get_prop props "destinationDeviceId" = JNumber (destinationDeviceId m) /\
    get_prop props "destinationRegistrationId" = JNumber (destinationRegistrationId m) /\
    get_prop props "content" = JString (content m).
Proof.
  split.
  - destruct body as [| | | | | | |props]; try discriminate.
    unfold MessageSchema. cbv beta delta [z_object] iota. intros H.
    apply merge_ok in H as (g4 & c & H & Hc & ->).
    apply merge_ok in H as (g3 & r & H & Hr & ->).
    apply merge_ok in H as (g2 & i & H & Hi & ->).
    apply merge_ok in H as (g1 & t & H & Ht & ->).
    injection H as <-. simpl. exists props.
    unfold RegistrationIdSchema, DeviceIdSchema, transform, z_number, z_string, cast in *.
    destruct (get_prop props "type"); try discriminate.
    destruct (get_prop props "destinationDeviceId"); try discriminate.
    destruct (get_prop props "destinationRegistrationId"); try discriminate.
    destruct (get_prop props "content"); try discriminate.
    by simplify_eq.
  - intros (props & -> & Ht & Hi & Hr & Hc). destruct m as [t i r c]. simpl in *.
    unfold MessageSchema. cbv beta delta [z_object] iota.
    rewrite Ht, Hi, Hr, Hc. reflexivity.
Qed.

Lemma parse_items_messages (l : list Message) :
  parse_items MessageSchema (message_value <$> l) = ParseOk l.
Proof.
  induction l as [|m l IH]; [done|].
  rewrite fmap_cons. cbn [parse_items]. rewrite IH. by destruct m.
Qed.

(** X16. A list of messages comes back from its object: parsing the
    object whose properties hold a list of messages gives that list,
    with its messages in their order. A property the schema does not
    name makes no difference. A [Uint8Array], an object without the two
    properties, is refused with an issue for each of them, and a value
    that is no object at all with one issue. *)
Theorem message_list_round_trip (l : MessageList) :
  MessageListSchema (message_list_value l) = ParseOk l /\
  (forall k v props,
     k <> "messages" -> k <> "timestamp" ->
     MessageListSchema (JObject ((k, v) :: props)) = MessageListSchema (JObject props)) /\
  (forall bytes, MessageListSchema (JUint8Array bytes) = ParseError [invalid_type; invalid_type]) /\
  (forall v, (forall props, v <> JObject props) -> (forall bytes, v <> JUint8Array bytes) ->
     MessageListSchema v = ParseError [invalid_type]).
Proof.
  split; [|split; [|split]].
  - destruct l as [ms t]. unfold MessageListSchema, message_list_value. simpl.
    rewrite parse_items_messages. reflexivity.
  - intros k v props Hm Ht. unfold MessageListSchema. cbv beta delta [z_object] iota.
    cbn [get_prop].
    apply String.eqb_neq in Hm, Ht. by rewrite Hm, Ht.
  - reflexivity.
  - intros v Hv Hb. destruct v; try done; [by destruct (Hb bytes)|by destruct (Hv props)].
Qed.

Lemma optional_spec {A} (schema : Schema A) (v : JsValue) (r : option A) :
  optional schema v = ParseOk r ->
  (v = JUndefined /\ r = None) \/ (v <> JUndefined /\ exists a, schema v = ParseOk a /\ r = Some a).
Proof.
  unfold optional, transform. destruct v; try (intros [= <-]; by left);
    destruct (schema _) as [a|e] eqn:Hs; try discriminate;
    intros [= <-]; right; split; try done; eauto.
Qed.

(** X17. Of the device keys only [preKeys] is required. A body that
    parses has an array of pre-keys under [preKeys], and each of
    [pqPreKeys], [pqLastResortPreKey] and [signedPreKey] is missing from
    the parsed keys exactly when it is [undefined] in the body. A body
    with well-formed [preKeys] and none of the three parses; a body
    without [preKeys], or with [null] for one of the three, is
    refused. *)
Theorem device_keys_require_preKeys_only (props : list (string * JsValue)) :
  (forall keys,
     DeviceKeysSchema (JObject props) = ParseOk keys ->
     (exists items,
        get_prop props "preKeys" = JArray items /\
        parse_items PreKeySchema items = ParseOk (preKeys keys)) /\
     (get_prop props "pqPreKeys" = JUndefined <-> pqPreKeys keys = None) /\
     (get_prop props "pqLastResortPreKey" = JUndefined <-> pqLastResortPreKey keys = None) /\
     (get_prop props "signedPreKey" = JUndefined <-> signedPreKey keys = None)) /\
  (forall items pre,
     get_prop props "preKeys" = JArray items ->
     parse_items PreKeySchema items = ParseOk pre ->
     get_prop props "pqPreKeys" = JUndefined ->
     get_prop props "pqLastResortPreKey" = JUndefined ->
     get_prop props "signedPreKey" = JUndefined ->
     DeviceKeysSchema (JObject props) =
       ParseOk {| preKeys := pre; pqPreKeys := None; pqLastResortPreKey := None;
                  signedPreKey := None |}) /\
  (get_prop props "preKeys" = JUndefined \/
   get_prop props "pqPreKeys" = JNull \/
   get_prop props "pqLastResortPreKey" = JNull \/
   get_prop props "signedPreKey" = JNull ->
   success (DeviceKeysSchema (JObject props)) = false).
Proof.
  unfold DeviceKeysSchema. cbv beta delta [z_object] iota.
  split; [|split].
  - intros keys H.
    apply merge_ok in H as (g4 & s & H & Hs & ->).
    apply merge_ok in H as (g3 & l & H & Hl & ->).
    apply merge_ok in H as (g2 & q & H & Hq & ->).
    apply merge_ok in H as (g1 & p & H & Hp & ->).
    injection H as <-. simpl.
    apply optional_spec in Hs, Hl, Hq.
    split; [|split; [|split]].
    + unfold parse_array in Hp.
      destruct (get_prop props "preKeys") as [| | | | | |items|]; try discriminate.
      simpl in Hp. eauto.
    + destruct Hq as [[-> ->]|[Hne (a & _ & ->)]]; split; done.
    + destruct Hl as [[-> ->]|[Hne (a & _ & ->)]]; split; done.
    + destruct Hs as [[-> ->]|[Hne (a & _ & ->)]]; split; done.
  - intros items pre -> Hpre -> -> ->. simpl. by rewrite Hpre.
  - intros [H|[H|[H|H]]]; rewrite H.
    + by do 3 apply merge_refused_l.
    + by do 2 apply merge_refused_l; apply merge_refused_r.
    + by apply merge_refused_l, merge_refused_r.
    + by apply merge_refused_r.
Qed.

(** X18. A username confirmation needs [usernameHash] and [zkProof];
    [encryptedUsername] is optional. A body parses exactly when it is an
    object whose first two are strings and whose [encryptedUsername] is
    [undefined] or a string; the parsed value holds the decoded strings,
    and no [encryptedUsername] in the first case. *)
Theorem username_confirmation_has_an_optional_encrypted_username
    (fromURLSafeBase64 : string -> Buffer) (body : JsValue) (c : UsernameConfirmation) :
  UsernameConfirmationSchema fromURLSafeBase64 body = ParseOk c <->
  exists props hash proof,
    body = JObject props /\
    get_prop props "usernameHash" = JString hash /\
    get_prop props "zkProof" = JString proof /\
    usernameHash c = fromURLSafeBase64 hash /\
    zkProof c = fromURLSafeBase64 proof /\
    ((get_prop props "encryptedUsername" = JUndefined /\ encryptedUsername c = None) \/
     (exists encrypted,
        get_prop props "encryptedUsername" = JString encrypted /\
        encryptedUsername c = Some (fromURLSafeBase64 encrypted))).
Proof.
  split.
  - destruct body as [| | | | | | |props]; try discriminate.
    unfold UsernameConfirmationSchema. cbv beta delta [z_object] iota. intros H.
    apply merge_ok in H as (g3 & e & H & He & ->).
    apply merge_ok in H as (g2 & z & H & Hz & ->).
    apply merge_ok in H as (g1 & h & H & Hh & ->).
    injection H as <-. simpl.
    unfold transform, z_string in Hh, Hz.
    destruct (get_prop props "usernameHash") as [| | | |hash| | |] eqn:Hhash;
      try discriminate.
    destruct (get_prop props "zkProof") as [| | | |proof| | |] eqn:Hproof; try discriminate.
    injection Hh as <-. injection Hz as <-.
    exists props, hash, proof. do 5 (split; [done|]).
    apply optional_spec in He as [[-> ->]|[Hne (a & Ha & ->)]]; [by left|right].
    unfold transform, z_string in Ha.
    destruct (get_prop props "encryptedUsername") as [| | | |encrypted| | |];
      try discriminate.
    injection Ha as <-. eauto.
  - intros (props & hash & proof & -> & Hh & Hz & Hch & Hcz & He).
    destruct c as [ch cz ce]. simpl in *. subst ch cz.
    unfold UsernameConfirmationSchema. cbv beta delta [z_object] iota.
    rewrite Hh, Hz.
    destruct He as [[-> ->]|(encrypted & -> & ->)]; reflexivity.
Qed.

End SchemaProperties.

(** ** Runs of the server

    The properties above, on runs of a server built with the default
    configuration. The pointer to an attachment is here the pair of the
    CDN key and the encrypted attachment. *)

Module Examples.

Import Api.

Definition Pointer : Type := (string * EncryptedAttachment)%type.

Definition pointer_of (cdnKey : string) (data : EncryptedAttachment) : Pointer :=
  (cdnKey, data).

(** The double of a small version, and the digits of a registration id
    below 10^21. *)
Definition to_number (version : Z) : float := of_uint63 (Uint63.of_Z version).

Definition digits (n : Z) : string := NilZero.string_of_int (Z.to_int n).

Definition certs : Certs :=
  {| CERT := []; KEY := [];
     TRUST_ROOT := {| tr_privateKey := "trust-private"; tr_publicKey := "trust-public" |};
     ZK_PARAMS := {| secretParams := "zk-secret"; zk_publicParams := "zk-public" |} |}.

Definition default_config : Config :=
  {| cfg_trustRoot := Missing; cfg_zkParams := Missing;
     cfg_https := Missing; cfg_timeout := Missing |}.

(** The server after [new Server()]. *)
Definition constructed : @State Pointer := constructor certs default_config [] [] [].

Definition alice : Device :=
  {| uuid := "aci-alice"; pni := "pni-alice"; number := "+15550001";
     deviceId := 1; registrationId := 7 |}.

Definition alice_phone : @PrimaryDevice Pointer :=
  {| device := alice;
     pd_config := {| profileName := "Alice"; contacts := ("c", Build_EncryptedAttachment [] [] [] 0);
                     groups := None; pd_trustRoot := []; serverPublicParams := [] |};
     profileKey := []; userAgent := "OWD" |}.

Definition alice_desktop : Device :=
  {| uuid := "aci-alice"; pni := "pni-alice"; number := "+15550001";
     deviceId := 2; registrationId := 9 |}.

(** The state of a run is kept in normal form. *)
Ltac settle :=
  match goal with
  | |- rtc _ (?s, _) _ =>
      let s' := eval vm_compute in s in
      let H := fresh in
      assert (H : s = s') by (vm_compute; reflexivity);
      try rewrite H; clear H
  end;
  simpl.

Ltac by_computation := vm_compute; reflexivity.

(** An equation without unknowns is computed; one with an unknown
    defines it. *)
Ltac settled :=
  match goal with
  | |- ?G => tryif has_evar G then reflexivity else by_computation
  end.

Ltac call c :=
  eapply rtc_l; [ apply (step_call pointer_of to_number digits c) | ]; settle.

Ltac resume_at i :=
  eapply (step_resume pointer_of to_number digits i); [ reflexivity | unfold resumes; cbn [body] ].

(** The method at index [i] goes on: with the entry at the head of the
    queue it shifts, with the acknowledgement of its entry, or with the
    answer [a] of the call it made. *)
Ltac shifted i :=
  eapply rtc_l;
  [ resume_at i;
    eexists (inr _), _; split;
    [ eexists _, _, _; split; [reflexivity | split; reflexivity]
    | split; reflexivity ]
  | ]; settle.

Ltac acknowledged i :=
  eapply rtc_l;
  [ resume_at i;
    exists (inr tt); eexists; split;
    [ split; [by_computation | reflexivity]
    | split; reflexivity ]
  | ]; settle.

Ltac answered i a :=
  eapply rtc_l;
  [ resume_at i;
    exists (inr a); eexists; split;
    [ cbn [wait_answers ext_answers]; repeat split; settled
    | split; reflexivity ]
  | ]; settle.

Definition link_response : @PendingProvisionResponse Pointer :=
  {| provisionURL := "tsdevice:/?uuid=link-1&pub_key=a2V5"; primaryDevice := alice_phone |}.

Definition link_query : Query :=
  {| query_uuid := QueryString "link-1"; query_pub_key := QueryString "a2V5" |}.

Definition link_pending : PendingProvision :=
  {| responseQueue := {| addr := 0 |}; resultQueue := {| addr := 0 |} |}.

(** A device is linked: the client asks for a provisioning response, the
    harness takes the pending provision and completes it, the client
    registers the device with the code and uploads its keys, and only
    then does [complete] resolve. *)
Lemma provisioning_run :
  exists s pool,
    rtc (step pointer_of to_number digits) (constructed, []) (s, pool) /\
    log s = [ CompleteResolved link_pending alice_desktop;
              UpdateDeviceKeysCalled alice_desktop;
              CodeConsumed "code-1";
              CodeIssued "code-1" {| addr := 0 |} ].
Proof.
  eexists _, _. split.
  - call (CallGetProvisioningResponse (AttachmentPointer := Pointer) "link-1").
    call (CallWaitForProvision (AttachmentPointer := Pointer)).
    shifted 1%nat.
    call (CallComplete link_pending link_response).
    acknowledged 0%nat.
    shifted 0%nat.
    answered 0%nat link_query.
    answered 0%nat (@nil Byte.byte).
    answered 0%nat (@nil Byte.byte).
    answered 0%nat "code-1".
    acknowledged 2%nat.
    call (CallProvisionDevice (AttachmentPointer := Pointer) "+15550001" "password" "code-1" 9).
    answered 3%nat alice_desktop.
    call (CallUpdateDeviceKeys (AttachmentPointer := Pointer) alice_desktop []).
    answered 4%nat tt.
    shifted 2%nat.
    apply rtc_refl.
  - reflexivity.
Qed.

(** The loop of [generateNumber] draws the number [a]. *)
Ltac drawn i a :=
  eapply rtc_l;
  [ resume_at i;
    exists (inr a); eexists; split;
    [ reflexivity
    | match goal with
      | |- if ?b then _ else _ =>
          let v := eval vm_compute in b in
          let H := fresh in
          assert (H : b = v) by (vm_compute; reflexivity);
          rewrite H; clear H
      end;
      split; reflexivity ]
  | ]; settle.

Definition empty_data : EncryptedAttachment :=
  {| blob := [x00; x01]; key := [x02]; digest := [x03]; att_size := 0 |}.

Definition contacts_data : EncryptedAttachment :=
  {| blob := [x04]; key := [x05]; digest := [x06]; att_size := 0 |}.

Definition alice_primary : @PrimaryDevice Pointer :=
  {| device := alice;
     pd_config := {| profileName := "Alice";
                     contacts := pointer_of "cdn-1" contacts_data;
                     groups := Some (pointer_of "cdn-0" empty_data);
                     pd_trustRoot := []; serverPublicParams := [] |};
     profileKey := []; userAgent := "OWD" |}.

(** The server is started and a primary device is created; the random
    number is drawn once. *)
Lemma startup_run :
  exists s pool,
    rtc (step pointer_of to_number digits) (constructed, []) (s, pool) /\
    is_Some (https (this s)) /\
    log s = [ PrimaryDeviceCreated alice_primary;
              Encrypted [] contacts_data;
              NumberGenerated "+15550001";
              EmptyAttachmentStored (pointer_of "cdn-0" empty_data);
              Encrypted [] empty_data ].
Proof.
  eexists _, _. split.
  - call (CallListen (AttachmentPointer := Pointer) 443 None).
    answered 0%nat empty_data.
    answered 0%nat "cdn-0".
    answered 0%nat {| server_handle := 1 |}.
    call (CallCreatePrimaryDevice (AttachmentPointer := Pointer) "Alice" []).
    drawn 1%nat "+15550001".
    answered 1%nat tt.
    answered 1%nat "aci-alice".
    answered 1%nat "pni-alice".
    answered 1%nat 7.
    answered 1%nat alice.
    answered 1%nat (@nil Byte.byte).
    answered 1%nat contacts_data.
    answered 1%nat "cdn-1".
    answered 1%nat (@nil Byte.byte).
    answered 1%nat (@nil Byte.byte).
    answered 1%nat alice_primary.
    answered 1%nat tt.
    apply rtc_refl.
  - split; [by eexists|]. reflexivity.
Qed.

(** Two primary devices are created; the second draws the number of the
    first, and draws again. *)
Lemma numbers_run :
  exists s pool,
    rtc (step pointer_of to_number digits) (constructed, []) (s, pool) /\
    log s = [ NumberGenerated "+15550002"; NumberGenerated "+15550001" ].
Proof.
  eexists _, _. split.
  - call (CallCreatePrimaryDevice (AttachmentPointer := Pointer) "Alice" []).
    drawn 0%nat "+15550001".
    call (CallCreatePrimaryDevice (AttachmentPointer := Pointer) "Bob" []).
    drawn 1%nat "+15550001".
    drawn 1%nat "+15550002".
    apply rtc_refl.
  - reflexivity.
Qed.

(** ** The properties on these runs *)

Definition after_link : list (@Event Pointer) :=
  [ UpdateDeviceKeysCalled alice_desktop;
    CodeConsumed "code-1";
    CodeIssued "code-1" {| addr := 0 |} ].

(** C1 on the run that links a device: the mark of [updateDeviceKeys]
    precedes the resolution of [complete]. *)
Lemma complete_resolves_witness :
  exists s : State,
    reachable pointer_of to_number digits constructed s /\
    log s = CompleteResolved link_pending alice_desktop :: after_link /\
    UpdateDeviceKeysCalled alice_desktop ∈ after_link.
Proof.
  destruct provisioning_run as (s & pool & Hrun & Hlog).
  assert (Hr : reachable pointer_of to_number digits constructed s) by (by exists pool).
  exists s. split; [exact Hr|]. split; [exact Hlog|].
  exact (proj1 (complete_resolves_after_updateDeviceKeys pointer_of to_number digits
              certs default_config [] [] [] s Hr) [] after_link link_pending alice_desktop Hlog).
Defined.


(** C6 on the run that creates two primary devices. *)
Lemma generated_numbers_witness :
  exists s : State,
    reachable pointer_of to_number digits constructed s /\
    generated_numbers (log s) = ["+15550002"; "+15550001"] /\
    NoDup (generated_numbers (log s)).
Proof.
  destruct numbers_run as (s & pool & Hrun & Hlog).
  assert (Hr : reachable pointer_of to_number digits constructed s) by (by exists pool).
  exists s. split; [exact Hr|]. split; [by rewrite Hlog|].
  exact (proj1 (generated_numbers_distinct pointer_of to_number digits
              certs default_config [] [] [] s Hr)).
Defined.

(** C7 on the run that starts the server and creates a primary device:
    the device the run created has the empty attachment of the server as
    its [groups], the pointer [listen] stored. *)
Lemma empty_attachment_witness :
  exists s : State,
    reachable pointer_of to_number digits constructed s /\
    PrimaryDeviceCreated alice_primary ∈ log s /\
    EmptyAttachmentStored (pointer_of "cdn-0" empty_data) ∈ log s /\
    groups (pd_config alice_primary) = Some (pointer_of "cdn-0" empty_data) /\
    emptyAttachment (this s) = Some (pointer_of "cdn-0" empty_data) /\
    exists cdnKey data,
      pointer_of "cdn-0" empty_data = pointer_of cdnKey data /\
      Encrypted [] data ∈ log s /\ cdn s !! cdnKey = Some (blob data).
Proof.
  destruct startup_run as (s & pool & Hrun & Hs & Hlog).
  assert (Hr : reachable pointer_of to_number digits constructed s) by (by exists pool).
  exists s. split; [exact Hr|].
  destruct (empty_attachment_preallocated pointer_of to_number digits certs default_config
              [] [] [] s Hr) as (_ & _ & Hstored & _ & Hone).
  assert (Hcreated : PrimaryDeviceCreated alice_primary ∈ log s).
  { rewrite Hlog. left. }
  assert (Hmark : EmptyAttachmentStored (pointer_of "cdn-0" empty_data) ∈ log s).
  { rewrite Hlog. do 3 right. left. }
  assert (Hp : stored_pointers (log s) = [pointer_of "cdn-0" empty_data]).
  { rewrite Hlog. reflexivity. }
  destruct (Hone _ Hp alice_primary Hcreated) as [Hgroups Hempty].
  split; [exact Hcreated|]. split; [exact Hmark|]. split; [exact Hgroups|].
  split; [exact Hempty|]. exact (Hstored _ Hmark).
Defined.

(** C8 on the run that links a device: the default timeout. *)
Lemma configured_timeout_witness :
  exists s : State,
    reachable pointer_of to_number digits constructed s /\
    timeout (config (this s)) = Some 60000 /\
    exists Q, queues QPending (heap s) !! addr (provisionQueue (this s)) = Some Q /\
      queue_timeout Q = Some 60000.
Proof.
  destruct provisioning_run as (s & pool & Hrun & Hlog).
  assert (Hr : reachable pointer_of to_number digits constructed s) by (by exists pool).
  exists s. split; [exact Hr|].
  destruct (queues_have_configured_timeout pointer_of to_number digits
              certs default_config [] [] [] s Hr)
    as (Hdefault & _ & _ & (Q & HQ & HT) & _).
  destruct (Hdefault eq_refl) as [Ht _].
  split; [exact Ht|]. exists Q. split; [exact HQ|]. by rewrite HT.
Defined.

(** The queue of versions of the account of Alice, holding one version. *)
Definition one_version (version : float) : PromiseQueue float :=
  {| queue_timeout := Some 60000; entries := [(version, None)] |}.

(** C3, the claim as it was stated, fails when [afterVersion] is [NaN]:
    the call returns on version 0, the first it shifts, which is not
    above [NaN]. *)
Lemma manifest_wait_returns_at_once_after_NaN :
  let parked := run_sync (waitForStorageManifest alice (Some nan)) constructed in
  let s1 := (run_sync (onStorageManifestUpdate to_number alice 0) parked.2).2 in
  versionQueues (heap s1) !! 0%nat = Some (one_version 0%float) /\
  (exists s2, resumes parked.1 s1 (Ret tt) s2) /\
  (nan <? 0)%float = false.
Proof.
  split; [by_computation|]. split; [|reflexivity].
  eexists. exists (inr 0%float). eexists. split.
  - exists (one_version 0%float), None, []. split; [by_computation|]. split; reflexivity.
  - simpl. split; reflexivity.
Qed.

(** C3 as amended, on a device that waits for a manifest after version
    3: version 2 arrives and the device waits again, version 5 arrives
    and the call returns. *)
Lemma manifest_wait_witness :
  let parked := run_sync (waitForStorageManifest alice (Some 3%float)) constructed in
  let s1 := (run_sync (onStorageManifestUpdate to_number alice 2) parked.2).2 in
  exists s2 s4,
    resumes parked.1 s1 parked.1 s2 /\
    resumes parked.1 (run_sync (onStorageManifestUpdate to_number alice 5) s2).2 (Ret tt) s4 /\
    (2 <=? 3)%float = true /\ (3 <? 5)%float = true.
Proof.
  destruct (manifest_wait_returns_on_later_version alice 3%float constructed)
    as (queue & Hq & _ & _ & _ & Hstep & _ & Hlt & _).
  assert (Hq0 : manifestQueueByUuid
                  (this (run_sync (waitForStorageManifest alice (Some 3%float))
                           (constructed : @State Pointer)).2) !! uuid alice =
                Some {| addr := 0 |}) by by_computation.
  rewrite Hq0 in Hq. injection Hq as <-.
  eexists _, _. split; [|split; [|split; [reflexivity|]]].
  - refine (Hstep _ (one_version 2%float) 2%float None [] _ eq_refl). by_computation.
  - refine (Hstep _ (one_version 5%float) 5%float None [] _ eq_refl). by_computation.
  - exact (proj1 (Hlt eq_refl 5%float eq_refl) eq_refl).
Defined.

(** C9, the claim as it was stated, fails on a message without a source
    that is not a sealed-sender envelope: [handleMessage] throws, also
    when the target is not the primary device. *)
Lemma handleMessage_throws_without_source :
  deviceId alice_desktop <> PRIMARY_DEVICE_ID /\
  run_sync (handleMessage None (OtherEnvelope 1) alice_desktop []) constructed =
    (Throw (AssertionError no_source_message), constructed) /\
  ~ (forall source envelopeType target encrypted (s : @State Pointer),
       deviceId target <> PRIMARY_DEVICE_ID \/
       primaryDevices (this s) !! uuid target = None ->
       (run_sync (handleMessage source envelopeType target encrypted) s).1 = Ret tt).
Proof.
  split; [done|]. split; [reflexivity|].
  intros H.
  assert (Hne : deviceId alice_desktop <> PRIMARY_DEVICE_ID) by done.
  pose proof (H None (OtherEnvelope 1) alice_desktop [] constructed (or_introl Hne)) as Hret.
  discriminate Hret.
Qed.

(** C9 as amended, on a server that has a primary device registered for
    the uuid of the target. *)
Lemma handleMessage_witness :
  let s := with_this (with_primaryDevices (insert "aci-alice" alice_phone) (this constructed))
             constructed in
  (run_sync (handleMessage (Some alice_desktop) (OtherEnvelope 1) alice []) s).1 =
    ext (PrimaryHandleEnvelope alice_phone (Some alice_desktop) (OtherEnvelope 1) []) /\
  (run_sync (handleMessage (Some alice) (OtherEnvelope 1) alice_desktop []) s).1 = Ret tt.
Proof.
  split.
  - refine (proj1 (proj2 (proj2 (proj2
             (handleMessage_delivers_to_registered_primary (Some alice_desktop)
                (OtherEnvelope 1) alice [] _)))) alice_phone _ _ _).
    + left. by eexists.
    + reflexivity.
    + reflexivity.
  - refine (proj1 (proj2 (proj2
             (handleMessage_delivers_to_registered_primary (Some alice) (OtherEnvelope 1)
                alice_desktop [] _))) _ _).
    + left. by eexists.
    + left. done.
Defined.

(** C10 on a server that was just constructed, and on one that listens. *)
Lemma lifecycle_witness :
  run_sync close constructed = (Throw (JsError "Not listening"), constructed) /\
  run_sync address constructed = (Throw (JsError "Not listening"), constructed) /\
  let s := with_this (with_https (Some {| server_handle := 1 |}) (this constructed))
             constructed in
  run_sync (listen pointer_of 443 None) s = (Throw (JsError "Already listening"), s).
Proof.
  split; [|split].
  - exact (proj1 (proj2 (lifecycle_methods_check_listening pointer_of 443 None constructed)
                    eq_refl)).
  - exact (proj2 (proj2 (lifecycle_methods_check_listening pointer_of 443 None constructed)
                    eq_refl)).
  - refine (proj1 (lifecycle_methods_check_listening pointer_of 443 None _) _).
    by eexists.
Defined.

(** A decoder for the examples: the bytes of the string. *)
Definition bytes_of (s : string) : list Byte.byte :=
  Ascii.byte_of_ascii <$> String.list_ascii_of_string s.

Definition reservation (hashes : list string) : Schemas.JsValue :=
  Schemas.JObject [("usernameHashes", Schemas.JArray (Schemas.JString <$> hashes))].

(** C4 on bodies with two hashes, with none and with 21. *)
Lemma username_reservation_witness :
  Schemas.UsernameReservationSchema bytes_of (reservation ["aGFzaDE"; "aGFzaDI"]) =
    Schemas.ParseOk
      {| Schemas.usernameHashes := [bytes_of "aGFzaDE"; bytes_of "aGFzaDI"] |} /\
  Schemas.validation_status (Schemas.UsernameReservationSchema bytes_of (reservation [])) =
    Some 422 /\
  Schemas.validation_status
    (Schemas.UsernameReservationSchema bytes_of (reservation (replicate 21 "aGFzaA"))) =
    Some 422.
Proof.
  split; [|split].
  - exact (proj1 (proj2 (SchemaProperties.username_reservation_takes_1_to_20_hashes bytes_of
                           (reservation ["aGFzaDE"; "aGFzaDI"]))
                    _ ["aGFzaDE"; "aGFzaDI"] eq_refl eq_refl)
             ltac:(simpl; lia)).
  - exact (proj2 (proj2 (proj2 (SchemaProperties.username_reservation_takes_1_to_20_hashes
                                  bytes_of (reservation []))
                           _ [] eq_refl eq_refl)
                    (or_introl eq_refl))).
  - exact (proj2 (proj2 (proj2 (SchemaProperties.username_reservation_takes_1_to_20_hashes
                                  bytes_of (reservation (replicate 21 "aGFzaA")))
                           _ (replicate 21 "aGFzaA") eq_refl eq_refl)
                    (or_intror eq_refl))).
Defined.

Definition new_group : Schemas.JsValue :=
  Schemas.JObject
    [ ("publicKey", Schemas.JUint8Array [x01; x02]);
      ("version", Schemas.JNumber 0);
      ("accessControl",
        Schemas.JObject [ ("attributes", Schemas.JNumber 2); ("members", Schemas.JNumber 2);
                          ("addFromInviteLink", Schemas.JNumber 4) ]);
      ("members", Schemas.JArray [Schemas.JObject []]) ].

(** C5 on a group state with one member. *)
Lemma group_state_witness :
  exists state,
    Schemas.GroupStateSchema new_group = Schemas.ParseOk state /\
    Schemas.version state = 0 /\
    Schemas.members state = [Schemas.JObject []].
Proof.
  eexists. split; [reflexivity|].
  destruct (proj1 (SchemaProperties.group_state_starts_at_version_0 new_group) _ eq_refl)
    as (props & items & Hb & Hv & Hm & Hne & Hversion & Hmembers).
  split; [exact Hversion|]. reflexivity.
Defined.

(** A device is registered with its code and has not yet uploaded its
    keys: the result queue of the attempt is filed under the key of the
    device. *)
Lemma registration_run :
  exists s pool,
    rtc (step pointer_of to_number digits) (constructed, []) (s, pool) /\
    provisionResultQueueByKey (this s) !! "aci-alice.9" = Some {| addr := 0 |} /\
    log s = [ CodeConsumed "code-1"; CodeIssued "code-1" {| addr := 0 |} ].
Proof.
  eexists _, _. split.
  - call (CallGetProvisioningResponse (AttachmentPointer := Pointer) "link-1").
    call (CallWaitForProvision (AttachmentPointer := Pointer)).
    shifted 1%nat.
    call (CallComplete link_pending link_response).
    acknowledged 0%nat.
    shifted 0%nat.
    answered 0%nat link_query.
    answered 0%nat (@nil Byte.byte).
    answered 0%nat (@nil Byte.byte).
    answered 0%nat "code-1".
    acknowledged 2%nat.
    call (CallProvisionDevice (AttachmentPointer := Pointer) "+15550001" "password" "code-1" 9).
    answered 3%nat alice_desktop.
    apply rtc_refl.
  - split; by_computation.
Qed.

(** A primary device is created on a server that was not started: the
    number is drawn and recorded, the device is registered with the base
    server, and the call throws. *)
Lemma unstarted_run :
  exists s pool,
    rtc (step pointer_of to_number digits) (constructed, []) (s, pool) /\
    pool = [ {| body := @Throw Pointer (@PrimaryDevice Pointer)
                          (JsError "Mock#init must be called before starting the server") |} ] /\
    emptyAttachment (this s) = None /\
    "+15550001" ∈ knownNumbers (this s).
Proof.
  eexists _, _. split.
  - call (CallCreatePrimaryDevice (AttachmentPointer := Pointer) "Alice" []).
    drawn 0%nat "+15550001".
    answered 0%nat tt.
    answered 0%nat "aci-alice".
    answered 0%nat "pni-alice".
    answered 0%nat 7.
    answered 0%nat alice.
    apply rtc_refl.
  - split; [reflexivity|]. split; [reflexivity|]. by_computation.
Qed.

(** ** The further properties on runs *)

(** X1 on the run that links a device. *)
Lemma constructor_fields_witness :
  exists s : State,
    reachable pointer_of to_number digits constructed s /\
    config (this s) = strict_config certs default_config /\
    provisionQueue (this s) = provisionQueue (this constructed).
Proof.
  destruct provisioning_run as (s & pool & Hrun & Hlog).
  assert (Hr : reachable pointer_of to_number digits constructed s) by (by exists pool).
  exists s. split; [exact Hr|].
  destruct (constructor_fields_are_never_reassigned pointer_of to_number digits certs default_config
              [] [] [] s Hr) as (Hc & _ & _ & _ & Hq & _).
  split; [exact Hc|exact Hq].
Defined.

(** X2 on the run that starts the server, followed by a [close]. *)
Lemma started_server_witness :
  exists (s s' : State) pool pool',
    rtc (step pointer_of to_number digits) (constructed, []) (s, pool) /\
    rtc (step pointer_of to_number digits) (s, pool) (s', pool') /\
    s' = (run_sync close s).2 /\
    run_sync (listen pointer_of 443 None) s' = (Throw (JsError "Already listening"), s').
Proof.
  destruct startup_run as (s & pool & Hrun & Hs & Hlog).
  eexists s, _, pool, _.
  pose proof (rtc_once _ _ (step_call pointer_of to_number digits CallClose s pool))
    as Hclose.
  split; [exact Hrun|]. split; [exact Hclose|]. split; [reflexivity|].
  exact (proj2 (proj2 (started_server_is_never_restarted pointer_of to_number digits
              certs default_config [] [] [] s _ pool _ 443 None Hrun Hclose Hs))).
Defined.

(** X3 on the run that creates two primary devices, followed by the
    call of a third [createPrimaryDevice]. *)
Lemma numbers_kept_witness :
  exists (s s' : State) pool pool',
    rtc (step pointer_of to_number digits) (constructed, []) (s, pool) /\
    rtc (step pointer_of to_number digits) (s, pool) (s', pool') /\
    NumberGenerated "+15550001" ∈ log s /\
    NumberGenerated "+15550001" ∈ log s'.
Proof.
  destruct numbers_run as (s & pool & Hrun & Hlog).
  eexists s, _, pool, _.
  pose proof (rtc_once _ _ (step_call pointer_of to_number digits
                              (CallCreatePrimaryDevice "Carol" []) s pool))
    as Hnext.
  assert (Hin : NumberGenerated "+15550001" ∈ log s).
  { rewrite Hlog. right. left. }
  split; [exact Hrun|]. split; [exact Hnext|]. split; [exact Hin|].
  exact (proj2 (proj2 (proj2 (numbers_and_primary_devices_are_never_removed
                                pointer_of to_number digits certs
                                default_config [] [] [] s _ pool _ Hrun Hnext))) _ Hin).
Defined.

(** A device waits for a manifest of the account of Alice. *)
Definition alice_waits : @State Pointer :=
  (run_sync (waitForStorageManifest alice None) constructed).2.

(** X4 on a run where a device waits for a manifest and a manifest is
    then stored: the number of the version goes to the queue the device
    waits on. *)
Lemma manifest_update_witness :
  exists (s' : State) pool',
    rtc (step pointer_of to_number digits)
      (alice_waits,
       [ {| body := (run_sync (waitForStorageManifest alice None) constructed).1 |} ])
      (s', pool') /\
    manifestQueueByUuid (this s') !! "aci-alice" = Some {| addr := 0 |} /\
    run_sync (waitForStorageManifest alice_desktop (Some 3%float)) s' =
      (DoWhile (Shift QVersion {| addr := 0 |}) (fun number _ => (number <=? 3)%float)
         (fun _ => Ret tt), s') /\
    exists Q Q',
      versionQueues (heap s') !! 0%nat = Some Q /\
      versionQueues (heap (run_sync (onStorageManifestUpdate to_number alice 7) s').2) !! 0%nat =
        Some Q' /\
      entries Q' = (entries Q ++ [(to_number 7, None)])%list.
Proof.
  pose proof (rtc_once _ _ (step_call pointer_of to_number digits
                              (CallWaitForStorageManifest alice None) constructed [])) as Hrun.
  pose proof (rtc_once _ _ (step_call pointer_of to_number digits
                              (CallOnStorageManifestUpdate alice_desktop 5) alice_waits
                              [ {| body := (run_sync (waitForStorageManifest alice None)
                                              constructed).1 |} ])) as Hnext.
  eexists _, _. split; [exact Hnext|].
  assert (Hq : manifestQueueByUuid (this alice_waits) !! uuid alice_desktop =
               Some {| addr := 0 |}) by (vm_compute; reflexivity).
  destruct (manifest_update_reaches_waiter pointer_of to_number digits certs default_config
              [] [] [] alice_waits _ _ _ alice_desktop {| addr := 0 |} (Some 3%float) 7
              Hrun Hnext Hq)
    as (Hkept & Hwait & Q & HQ & _ & _ & Q' & HQ' & Hentries).
  split; [exact Hkept|]. split; [exact Hwait|].
  exists Q, Q'. split; [exact HQ|]. split; [exact HQ'|exact Hentries].
Defined.

(** X5 on the run where a primary device is created before the server
    is started. *)
Lemma no_primary_device_witness :
  exists (s : State) pool,
    rtc (step pointer_of to_number digits) (constructed, []) (s, pool) /\
    pool = [ {| body := @Throw Pointer (@PrimaryDevice Pointer)
                          (JsError "Mock#init must be called before starting the server") |} ] /\
    "+15550001" ∈ knownNumbers (this s) /\
    primaryDevices (this s) = ∅ /\
    forall primary, PrimaryDeviceCreated primary ∉ log s.
Proof.
  destruct unstarted_run as (s & pool & Hrun & Hpool & Hempty & Hknown).
  assert (Hr : reachable pointer_of to_number digits constructed s) by (by exists pool).
  exists s, pool. split; [exact Hrun|]. split; [exact Hpool|]. split; [exact Hknown|].
  destruct (no_primary_device_before_listen pointer_of to_number digits certs default_config
              [] [] [] s None (OtherEnvelope 1) alice [] "Alice" [] Hr Hempty)
    as (_ & Hnone & Hcreated & _).
  split; [exact Hnone|exact Hcreated].
Defined.

(** X6 on the run that creates a primary device. *)
Lemma created_primary_devices_witness :
  exists s : State,
    reachable pointer_of to_number digits constructed s /\
    forall k primary,
      primaryDevices (this s) !! k = Some primary -> PrimaryDeviceCreated primary ∈ log s.
Proof.
  destruct startup_run as (s & pool & Hrun & Hs & Hlog).
  assert (Hr : reachable pointer_of to_number digits constructed s) by (by exists pool).
  exists s. split; [exact Hr|].
  exact (proj1 (envelopes_go_to_created_primary_devices pointer_of to_number digits
              certs default_config [] [] [] s None SealedSender alice [] Hr)).
Defined.

(** A code waits for its device. *)
Definition code_issued : @State Pointer :=
  with_this (with_provisionResultQueueByCode (insert "code-1" {| addr := 0 |})
               (this constructed)) constructed.

(** X9 on a server where a code waits for its device. *)
Lemma provisionDevice_witness :
  exists k,
    run_sync (provisionDevice digits "+15550001" "password" "code-1" 9) code_issued =
      (Wait (Ext (SuperProvisionDevice "+15550001" "password" "code-1" 9)) k,
       with_log [CodeConsumed "code-1"]
         (with_this (with_provisionResultQueueByCode (delete "code-1") (this code_issued))
            code_issued)) /\
    result_key digits alice_desktop = "aci-alice.9" /\
    provisionResultQueueByKey (this (run_sync (k alice_desktop) code_issued).2) =
      {[ "aci-alice.9" := {| addr := 0 |} ]} /\
    (run_sync (k alice_desktop) code_issued).1 = Ret alice_desktop.
Proof.
  assert (Hq : provisionResultQueueByCode (this code_issued) !! "code-1" =
               Some {| addr := 0 |}) by (vm_compute; reflexivity).
  destruct (provisionDevice_files_the_queue_under_the_device_key digits
              "+15550001" "password" "code-1" 9 {| addr := 0 |} code_issued Hq)
    as (k & Hrun & Hk).
  exists k. split; [exact Hrun|]. split; [reflexivity|].
  destruct (Hk alice_desktop code_issued) as (_ & Hfiled & _ & _ & _ & Hret & _).
  split; [exact Hfiled|]. apply Hret. reflexivity.
Defined.

(** X10 on the run that starts the server. *)
Lemma address_witness :
  exists (s : State) server k,
    reachable pointer_of to_number digits constructed s /\
    run_sync address s = (Wait (Ext (ServerAddress server)) k, s) /\
    (run_sync (k AddressNull) s).1 = Throw (JsError "Invalid .address() result").
Proof.
  destruct startup_run as (s & pool & Hrun & [server Hs] & Hlog).
  destruct (address_returns_object_results_only server s Hs) as (k & Hk & Hanswers).
  exists s, server, k. split; [by exists pool|]. split; [exact Hk|].
  by rewrite (Hanswers AddressNull s).
Defined.

(** X19 on the run that registers a device with its code. *)
Lemma filed_queue_witness :
  exists s : State,
    reachable pointer_of to_number digits constructed s /\
    exists code l1 l2 l3,
      log s = (l1 ++ CodeConsumed code :: l2 ++ CodeIssued code {| addr := 0 |} :: l3)%list /\
      untouched code l2.
Proof.
  destruct registration_run as (s & pool & Hrun & Hkey & Hlog).
  assert (Hr : reachable pointer_of to_number digits constructed s) by (by exists pool).
  exists s. split; [exact Hr|].
  exact (result_queues_are_filed_through_a_code pointer_of to_number digits
              certs default_config [] [] []
           s "aci-alice.9" {| addr := 0 |} Hr Hkey).
Defined.

End Examples.
